(** * Piano fingering inference: feature encoder and hand predictor

    A shallow embedding of [js/src/inference.ts] (package
    [@lumikey/piano-fingering-model]) together with proofs of the properties
    its design document states.

    Conventions of the embedding.
    - A JavaScript [number] is an exact rational ([Q]).  Rounding, [NaN] and
      the infinities are outside the model, except for the [Infinity] that
      the source itself stores in [fingerLastTime], which has a constructor
      of its own ([PosInf]).  Storing into the [Float32Array] is the
      identity.  Numeric equality of the source ([===] on numbers, [Set.has],
      the truthiness test of [||]) is [Qeq]; a value that the source copies
      is copied, so that equality of copied values is Leibniz equality.
    - An optional field ([finger?], [velocity?], and [duration], which the
      source reads through [??]) is an [option].
    - [await model.run(...)] is a call into foreign code: it may fail and it
      may have state of its own.  The hand predictor therefore lives in a
      state-and-failure monad over the oracle's state.
    - Notes are values in the first embedding.  A second embedding of the
      predictor ([Obj]) keeps the notes as objects in a store, to state
      what happens to the objects of the caller, and is shown to compute
      the same records. *)

From Stdlib Require Import QArith Qround Qminmax Lqa Lia ZArith Sorted.
From Stdlib Require Import Permutation.
From Stdlib Require String Ascii.
From stdpp Require Import base list option.

Local Open Scope Q_scope.

(** ** JavaScript numbers *)

Definition number : Type := Q.

(** [x < y] as the source tests it. *)
Definition Qltb (x y : Q) : bool := negb (Qle_bool y x).

(** [x >= y]. *)
Definition Qgeb (x y : Q) : bool := Qle_bool y x.

(** Rounding towards zero, the quotient that the remainder operator uses. *)
Definition js_trunc (x : Q) : Z :=
  if Qle_bool 0 x then Qfloor x else Qceiling x.

(** The remainder operator [a % b]: the result has the sign of [a]. *)
Definition js_rem (a b : Q) : Q := a - b * inject_Z (js_trunc (a / b)).

(** [a || b] on numbers: [a] when it is not zero, otherwise [b]. *)
Definition js_or (a b : Q) : Q := if Qeq_bool a 0 then b else a.

(** [Math.min] and [Math.max]. *)
Definition Math_min (a b : Q) : Q := Qmin a b.
Definition Math_max (a b : Q) : Q := Qmax a b.

(** An element of [fingerLastTime]: a number or [Infinity]. *)
Inductive ExtNum : Type :=
  | PosInf : ExtNum
  | Fin (t : Q) : ExtNum.

(** Floored modulo on rationals, the mathematical [x mod m]. *)
Definition Qmod (x m : Q) : Q := x - m * inject_Z (Qfloor (x / m)).

(** ** Pitch helpers *)

(** A#, C#, D#, F#, G# as offsets from A0. *)
Definition BLACK_KEY_NOTES : list Q := [1; 4; 6; 9; 11].

Definition set_has (s : list Q) (x : Q) : bool := existsb (Qeq_bool x) s.

Definition isBlackKey (midi : number) : number :=
  if Qltb midi 0 then -1
  else
    let keyIndex := midi - 21 in
    if set_has BLACK_KEY_NOTES (js_rem (js_rem keyIndex 12 + 12) 12)
    then 1 else 0.

Definition midiToPitchClass (midi : number) : number :=
  if Qltb midi 0 then -1
  else
    let pitchClass := js_rem (js_rem (midi - 21) 12 + 12) 12 in
    pitchClass / 11.

(** ** Feature encoder *)

Record LookaheadNote : Type := mkLookahead {
  ln_midi : number;
  ln_timeUntil : number;
  ln_finger : option number  (* 0-4, or null if unknown *)
}.

(** One row of the token matrix, five features. *)
Definition Token : Type := list number.

(** Row [f] of the previous-use block (rows 0-4).  [midi] is
    [fingerLastMidi[f]] and [t] is [fingerLastTime[f]]. *)
Definition previous_token (refMidiNorm : number) (midi : number) (t : ExtNum)
  : Token :=
  [ (if Qgeb midi 0 then (midi - 21) / 87 - refMidiNorm else -1);
    (match t with
     | PosInf => 1
     | Fin t => Math_max 0 (Math_min t 10) / 10
     end);
    (if Qgeb midi 0 then isBlackKey midi else -1);
    0;
    -1 ].

(** Row 5, the note being fingered. *)
Definition current_token (currentMidi : number) : Token :=
  [ midiToPitchClass currentMidi; 0; isBlackKey currentMidi; 1 / 2; -1 ].

(** Row [6 + j] of the lookahead block; [None] is a slot past the end of
    [lookaheadNotes]. *)
Definition lookahead_token (refMidiNorm : number) (slot : option LookaheadNote)
  : Token :=
  match slot with
  | Some ln =>
      let midi := ln_midi ln in
      [ (if Qgeb midi 0 then (midi - 21) / 87 - refMidiNorm else -1);
        (if Qltb (ln_timeUntil ln) 0 then -1
         else Math_min (ln_timeUntil ln / 1000) 10 / 10);
        (if Qgeb midi 0 then isBlackKey midi else -1);
        1;
        (match ln_finger ln with
         | Some fg =>
             if Qgeb fg 0 && Qle_bool fg 4 then fg / 4 else -1
         | None => -1
         end) ]
  | None => [ -1; -1; -1; -1; -1 ]
  end.

(** [buildTokens]: the 26 rows in row-major order.  The two state arrays are
    created with five elements by the only caller and keep that length, so
    the defaults of [nth] below are never read. *)
Definition buildTokens (currentMidi : number)
    (fingerLastMidi : list number) (fingerLastTime : list ExtNum)
    (lookaheadNotes : list LookaheadNote) : list number :=
  let refMidiNorm := (currentMidi - 21) / 87 in
  flat_map
    (fun f => previous_token refMidiNorm
                (nth f fingerLastMidi (-1)) (nth f fingerLastTime PosInf))
    (seq 0 5)
  ++ current_token currentMidi
  ++ flat_map
       (fun j => lookahead_token refMidiNorm (lookaheadNotes !! j))
       (seq 0 20).

(** Feature [c] of row [r]. *)
Definition token_at (tokens : list number) (r c : nat) : option number :=
  tokens !! (r * 5 + c)%nat.

(** ** Choice of the finger *)

Fixpoint argmax_from (arr : list number) (i maxIdx : nat) (maxVal : number)
  : nat :=
  match arr with
  | [] => maxIdx
  | x :: rest =>
      if Qltb maxVal x then argmax_from rest (S i) i x
      else argmax_from rest (S i) maxIdx maxVal
  end.

(** [argmax]; on an empty array the loop does not run and the result is 0. *)
Definition argmax (arr : list number) : nat :=
  match arr with
  | [] => 0%nat
  | x :: rest => argmax_from rest 1 0 x
  end.

(** ** Notes *)

Record Note : Type := mkNote {
  left : bool;
  note : number;
  time : number;
  duration : option number;
  velocity : option number;
  finger : option number
}.

(** [{ ...n, finger: f }]: a copy of [n] with its [finger] replaced. *)
Definition with_finger (n : Note) (f : number) : Note :=
  {| left := left n; note := note n; time := time n;
     duration := duration n; velocity := velocity n; finger := Some f |}.

(** [x !== undefined && x >= 1 && x <= 5] *)
Definition is_fixed_finger (x : option number) : bool :=
  match x with
  | Some x => Qgeb x 1 && Qle_bool x 5
  | None => false
  end.

(** The comparator [(a, b) => a.time - b.time || a.note - b.note]. *)
Definition compareNotes (a b : Note) : number :=
  js_or (time a - time b) (note a - note b).

(** ** [Array.prototype.sort]

    The sort is stable, and for a comparator that is a consistent ordering
    the result is the one stable arrangement of the input, whichever
    algorithm the engine runs.  Insertion from the right computes it: an
    element goes before the first later element that does not compare
    strictly below it. *)
Section Sort.
Context {A : Type} (cmp : A -> A -> number).

Fixpoint sort_insert (x : A) (l : list A) : list A :=
  match l with
  | [] => [x]
  | y :: l' =>
      if Qle_bool (cmp x y) 0 then x :: y :: l'
      else y :: sort_insert x l'
  end.

Fixpoint js_sort (l : list A) : list A :=
  match l with
  | [] => []
  | x :: l' => sort_insert x (js_sort l')
  end.

(** [x] may stand before [y]. *)
Definition cmp_le (x y : A) : Prop := cmp x y <= 0.

End Sort.

Definition sortNotes : list Note -> list Note := js_sort compareNotes.

(** The order that the comparator induces: by onset, then by pitch. *)
Definition note_le (a b : Note) : Prop :=
  time a < time b \/ (time a == time b /\ note a <= note b).

(** ** Finger state *)

(** The index of an array element named by the number [k], if [k] is a
    non-negative integer. *)
Definition js_index (k : number) : option nat :=
  let z := Qfloor k in
  if Qeq_bool k (inject_Z z) && (0 <=? z)%Z then Some (Z.to_nat z) else None.

(** [arr[k] = v] as seen through the elements that exist already.  When [k]
    is an index beyond the last element the source array grows, and when
    [k] is not an integer the array gets a named property; neither is one
    of the five elements that the predictor ever reads, and they stay as
    they are. *)
Definition arr_set {A : Type} (arr : list A) (k : number) (v : A) : list A :=
  match js_index k with
  | Some i => <[i := v]> arr
  | None => arr
  end.

Record FingerState : Type := mkFingerState {
  fingerLastMidi : list number;
  fingerLastTime : list ExtNum
}.

Definition initialFingerState : FingerState :=
  {| fingerLastMidi := [-1; -1; -1; -1; -1];
     fingerLastTime := [PosInf; PosInf; PosInf; PosInf; PosInf] |}.

(** "Update finger state": the two assignments at [fingerIdx]. *)
Definition updateFinger (st : FingerState) (fingerIdx : number)
    (currentMidi : number) (dur : option number) : FingerState :=
  let durationSec := default 100 dur / 1000 in
  {| fingerLastMidi := arr_set (fingerLastMidi st) fingerIdx currentMidi;
     fingerLastTime := arr_set (fingerLastTime st) fingerIdx (Fin (- durationSec)) |}.

(** One round of the ageing loop body. *)
Definition ageTime (dt : number) (t : ExtNum) : ExtNum :=
  match t with
  | PosInf => PosInf
  | Fin t => Fin (t + dt)
  end.

(** "Age finger times for next note": [for (f = 0; f < 5; f++)]. *)
Definition ageFingers (st : FingerState) (dt : number) : FingerState :=
  {| fingerLastMidi := fingerLastMidi st;
     fingerLastTime :=
       foldl (fun times f =>
                match times !! f with
                | Some t => <[f := ageTime dt t]> times
                | None => times
                end)
             (fingerLastTime st) (seq 0 5) |}.

(** ** The oracle and the monad of a run

    A computation that may call the oracle: it reads and writes the oracle's
    state [W] and may fail, in which case nothing is returned. *)

Definition M (W A : Type) : Type := W -> option (A * W).

Definition ret {W A : Type} (a : A) : M W A := fun w => Some (a, w).

Definition bind {W A B : Type} (m : M W A) (k : A -> M W B) : M W B :=
  fun w =>
    match m w with
    | Some (a, w') => k a w'
    | None => None
    end.

Notation "'do' x <- m ; k" := (bind m (fun x => k))
  (at level 10, x name, m at level 100, k at level 200).

(** [model.run({ tokens })] followed by [output.logits.data]: from the 130
    token values to the scores. *)
Definition InferenceSession (W : Type) : Type := list number -> M W (list number).

Record Models (W : Type) : Type := mkModels {
  left_model : InferenceSession W;
  right_model : InferenceSession W
}.
Arguments mkModels {W} _ _.
Arguments left_model {W} _.
Arguments right_model {W} _.

(** ** Hand predictor *)

(** The entry that the lookahead loop pushes for [futureNote]. *)
Definition lookaheadEntry (currentTime : number) (futureNote : Note)
  : LookaheadNote :=
  let timeUntil := time futureNote - currentTime in
  let fingerHint :=
    match finger futureNote with
    | Some futureFinger =>
        if Qgeb futureFinger 1 && Qle_bool futureFinger 5
        then Some (futureFinger - 1) else None
    | None => None
    end in
  {| ln_midi := note futureNote; ln_timeUntil := timeUntil;
     ln_finger := fingerHint |}.

(** "Keep fixed fingering if provided, otherwise use prediction": the
    record that is pushed and the finger that drives the state update. *)
Definition resolveFinger (n : Note) (pred : nat) : Note * number :=
  match finger n with
  | Some existing =>
      if Qgeb existing 1 && Qle_bool existing 5 then (n, existing)
      else
        let fg := inject_Z (Z.of_nat pred) + 1 in (with_finger n fg, fg)
  | None =>
      let fg := inject_Z (Z.of_nat pred) + 1 in (with_finger n fg, fg)
  end.

(** The state that the next iteration starts from: the update at the chosen
    finger, then the ageing when there is a next note. *)
Definition nextFingerState (st : FingerState) (n : Note) (fg : number)
    (rest : list Note) : FingerState :=
  let fingerIdx := fg - 1 in
  let st1 := updateFinger st fingerIdx (note n) (duration n) in
  match rest with
  | next :: _ => ageFingers st1 ((time next - time n) / 1000)
  | [] => st1
  end.

Section HandPredictor.
Context {W : Type} (model : InferenceSession W).

(** One iteration of the loop over [sorted]: [n] is [sorted[i]] and [rest]
    holds [sorted[i+1]], [sorted[i+2]], ... *)
Definition noteStep (n : Note) (rest : list Note) (st : FingerState)
  : M W (Note * FingerState) :=
  let currentTime := time n in
  let currentMidi := note n in
  let lookahead := map (lookaheadEntry currentTime) (take 20 rest) in
  let tokenData :=
    buildTokens currentMidi (fingerLastMidi st) (fingerLastTime st) lookahead in
  do logits <- model tokenData;
  let pred := argmax logits in
  let '(result, fg) := resolveFinger n pred in
  ret (result, nextFingerState st n fg rest).

Fixpoint handLoop (sorted : list Note) (st : FingerState) : M W (list Note) :=
  match sorted with
  | [] => ret []
  | n :: rest =>
      do step <- noteStep n rest st;
      let '(result, st') := step in
      do results <- handLoop rest st';
      ret (result :: results)
  end.

Definition predictHandFingerings (notes : list Note) (isLeft : bool)
  : M W (list Note) :=
  let handNotes := List.filter (fun n => Bool.eqb (left n) isLeft) notes in
  if (length handNotes =? 0)%nat then ret []
  else handLoop (sortNotes handNotes) initialFingerState.

End HandPredictor.

(** ** Pipeline coordinator *)

(** [predictFingerings] with the models given: left hand first. *)
Definition predictFingerings {W : Type} (notes : list Note) (m : Models W)
  : M W (list Note) :=
  do leftResults <- predictHandFingerings (left_model m) notes true;
  do rightResults <- predictHandFingerings (right_model m) notes false;
  let allResults := leftResults ++ rightResults in
  ret (sortNotes allResults).

(** The order of [runPrediction] in [demo/src/model-runner.ts]: the right
    hand runs first, the lists are joined left before right as above. *)
Definition predictFingeringsRightFirst {W : Type} (notes : list Note)
    (m : Models W) : M W (list Note) :=
  do rightResults <- predictHandFingerings (right_model m) notes false;
  do leftResults <- predictHandFingerings (left_model m) notes true;
  let allResults := leftResults ++ rightResults in
  ret (sortNotes allResults).

(** * Vocabulary of the statements *)

(** The notes of one hand in the order in which the predictor goes through
    them. *)
Definition handOrder (notes : list Note) (isLeft : bool) : list Note :=
  sortNotes (List.filter (fun n => Bool.eqb (left n) isLeft) notes).

(** The input notes, arranged as [predictFingerings] arranges its output:
    entry [i] of this list is the input note that entry [i] of the output
    comes from. *)
Definition outputOrder (notes : list Note) : list Note :=
  sortNotes (handOrder notes true ++ handOrder notes false).

(** [r] has every field of [n] except possibly [finger]. *)
Definition same_fields (n r : Note) : Prop :=
  left r = left n /\ note r = note n /\ time r = time n /\
  duration r = duration n /\ velocity r = velocity n.

(** A fixed finger of [n] is the finger of [r]. *)
Definition keeps_fixed (n r : Note) : Prop :=
  forall f : number,
    finger n = Some f -> 1 <= f -> f <= 5 -> finger r = Some f.

(** The session of the unit tests ([createMockSession]): the score of
    [fingerIndex] is 1 and the others are 0, and every call is recorded. *)
Definition createMockSession (fingerIndex : nat)
  : InferenceSession (list (list number)) :=
  fun tokenData calls =>
    Some (<[fingerIndex := 1]> [0; 0; 0; 0; 0], calls ++ [tokenData]).

(** An oracle that answers every request. *)
Definition never_fails {W : Type} (model : InferenceSession W) : Prop :=
  forall tokenData w, is_Some (model tokenData w).

(** ** Inputs of the unit tests *)

(** "preserves fixed fingerings" *)
Definition fixedNotes : list Note :=
  [ mkNote false 60 0 (Some 500) None (Some 3);
    mkNote false 62 500 (Some 500) None None;
    mkNote false 64 1000 (Some 500) None (Some 5) ].

(** "returns results sorted by time then note" *)
Definition scrambledNotes : list Note :=
  [ mkNote false 72 1000 (Some 500) None None;
    mkNote true 40 0 (Some 500) None None;
    mkNote false 60 0 (Some 500) None None;
    mkNote true 48 1000 (Some 500) None None ].

(** A right-hand note whose [finger] is 2.5, between two ordinary notes. *)
Definition halfFingerNotes : list Note :=
  [ mkNote false 60 0 (Some 500) None None;
    mkNote false 62 500 (Some 500) None (Some (5 # 2));
    mkNote false 64 1000 (Some 500) None None ].

(** [i] is the first position of [arr] that holds the largest element. *)
Definition is_first_maximum (arr : list number) (i : nat) : Prop :=
  exists v : number,
    arr !! i = Some v /\
    (forall (j : nat) (x : number), arr !! j = Some x -> x <= v) /\
    (forall (j : nat) (x : number), (j < i)%nat -> arr !! j = Some x -> x < v).

(** Row [r] carries the pitch sentinels: offset feature and black-key
    feature are both -1. *)
Definition pitch_sentinels_at (tokens : list number) (r : nat) : Prop :=
  exists o b : number,
    token_at tokens r 0 = Some o /\ token_at tokens r 2 = Some b /\
    o == -1 /\ b == -1.

(** A right-hand note without a fixed finger, and a session whose scores
    tie at the top: 3 at indices 1 and 2. *)
Definition freeNote : Note := mkNote false 60 0 (Some 500) None None.

Definition tiedSession : InferenceSession unit :=
  fun _ w => Some ([1; 3; 3; 2; 0], w).

(** Two right-hand notes 300 ms apart; the first one is the [fixedNotes]
    opening with finger 3. *)
Definition laterNote : Note := mkNote false 62 300 None None None.

Definition openingNote : Note := mkNote false 60 0 (Some 500) None (Some 3).

(** ** The hand predictor that skips the oracle for fixed notes

    The variant that the design notes allow: a note that carries a fixed
    finger in [1, 5] is resolved without a call to the oracle, every other
    note is handled as [noteStep] handles it. *)
Section SkipFixed.
Context {W : Type} (model : InferenceSession W).

Definition noteStepSkipFixed (n : Note) (rest : list Note) (st : FingerState)
  : M W (Note * FingerState) :=
  match finger n with
  | Some existing =>
      if Qgeb existing 1 && Qle_bool existing 5
      then ret (n, nextFingerState st n existing rest)
      else noteStep model n rest st
  | None => noteStep model n rest st
  end.

Fixpoint handLoopSkipFixed (sorted : list Note) (st : FingerState)
  : M W (list Note) :=
  match sorted with
  | [] => ret []
  | n :: rest =>
      do step <- noteStepSkipFixed n rest st;
      let '(result, st') := step in
      do results <- handLoopSkipFixed rest st';
      ret (result :: results)
  end.

Definition predictHandFingeringsSkipFixed (notes : list Note) (isLeft : bool)
  : M W (list Note) :=
  let handNotes := List.filter (fun n => Bool.eqb (left n) isLeft) notes in
  if (length handNotes =? 0)%nat then ret []
  else handLoopSkipFixed (sortNotes handNotes) initialFingerState.

End SkipFixed.

(** The oracle contract of the design: the oracle answers every request,
    and its scores are a function [scores] of the token matrix alone.  (Its
    state may still change from call to call, as the call log of
    [createMockSession] does.) *)
Definition scores_by {W : Type} (model : InferenceSession W)
    (scores : list number -> list number) : Prop :=
  forall tokenData w, exists w', model tokenData w = Some (scores tokenData, w').

(** ** Two sessions with separate state

    The left model works on the first component of the state and the right
    model on the second. *)
Definition on_left {SL SR : Type} (model : InferenceSession SL)
  : InferenceSession (SL * SR) :=
  fun tokenData w =>
    match model tokenData (fst w) with
    | Some (logits, sl) => Some (logits, (sl, snd w))
    | None => None
    end.

Definition on_right {SL SR : Type} (model : InferenceSession SR)
  : InferenceSession (SL * SR) :=
  fun tokenData w =>
    match model tokenData (snd w) with
    | Some (logits, sr) => Some (logits, (fst w, sr))
    | None => None
    end.

Definition separateModels {SL SR : Type} (l : InferenceSession SL)
    (r : InferenceSession SR) : Models (SL * SR) :=
  mkModels (on_left l) (on_right r).

(** * The same code over note objects

    Above, a note is a value.  In the source a note is an object, the arrays
    hold references to objects, and an assignment to a field changes the
    object for everyone who holds a reference to it.  This second embedding
    keeps that: notes live in a store, an array is a list of locations,
    [{ ...note }] allocates, and [result.finger = finger] writes to the
    store.  A location of the store is its index; allocation appends. *)

Abbreviation loc := nat (only parsing).
Abbreviation Store := (list Note) (only parsing).

#[global] Instance Note_inhabited : Inhabited Note :=
  populate (mkNote false 0 0 None None None).

Module Obj.

(** The object that [l] refers to.  Every element of a JavaScript array of
    notes is an object of the store; the statements below assume it of the
    caller's array, and the default of the lookup is never read. *)
Definition deref (s : Store) (l : loc) : Note := s !!! l.

(** [{ ...n }]: a new object with the fields of [n]. *)
Definition alloc (s : Store) (n : Note) : loc * Store := (length s, s ++ [n]).

(** [l.finger = f] *)
Definition setFinger (s : Store) (l : loc) (f : number) : Store :=
  <[l := with_finger (deref s l) f]> s.

(** The comparator, reading the two objects. *)
Definition compareRefs (s : Store) (a b : loc) : number :=
  compareNotes (deref s a) (deref s b).

Section HandPredictor.
Context {W : Type} (model : InferenceSession W).

Definition noteStep (l : loc) (rest : list loc) (st : FingerState)
  : M (Store * W) (loc * FingerState) :=
  fun '(s, w) =>
    let currentTime := time (deref s l) in
    let currentMidi := note (deref s l) in
    let lookahead :=
      map (fun k => lookaheadEntry currentTime (deref s k)) (take 20 rest) in
    let tokenData :=
      buildTokens currentMidi (fingerLastMidi st) (fingerLastTime st)
        lookahead in
    match model tokenData w with
    | None => None
    | Some (logits, w') =>
        let pred := argmax logits in
        let '(result, s1) := alloc s (deref s l) in
        let '(fg, s2) :=
          match finger (deref s1 l) with
          | Some existing =>
              if Qgeb existing 1 && Qle_bool existing 5 then (existing, s1)
              else
                let fg := inject_Z (Z.of_nat pred) + 1 in
                (fg, setFinger s1 result fg)
          | None =>
              let fg := inject_Z (Z.of_nat pred) + 1 in
              (fg, setFinger s1 result fg)
          end in
        Some ((result,
               nextFingerState st (deref s2 l) fg (map (deref s2) rest)),
              (s2, w'))
    end.

Fixpoint handLoop (sorted : list loc) (st : FingerState)
  : M (Store * W) (list loc) :=
  match sorted with
  | [] => ret []
  | l :: rest =>
      do step <- noteStep l rest st;
      let '(result, st') := step in
      do results <- handLoop rest st';
      ret (result :: results)
  end.

Definition predictHandFingerings (notes : list loc) (isLeft : bool)
  : M (Store * W) (list loc) :=
  fun '(s, w) =>
    let handNotes :=
      List.filter (fun l => Bool.eqb (left (deref s l)) isLeft) notes in
    if (length handNotes =? 0)%nat then ret [] (s, w)
    else handLoop (js_sort (compareRefs s) handNotes) initialFingerState (s, w).

End HandPredictor.

Definition predictFingerings {W : Type} (notes : list loc) (m : Models W)
  : M (Store * W) (list loc) :=
  do leftResults <- predictHandFingerings (left_model m) notes true;
  do rightResults <- predictHandFingerings (right_model m) notes false;
  let allResults := leftResults ++ rightResults in
  fun '(s, w) => Some (js_sort (compareRefs s) allResults, (s, w)).

End Obj.

(** What the caller observes of a run that took the store from [s] to [s']
    and returned the locations [out], the input notes being [ins] in output
    order: no object of [s] has changed; the returned locations are
    distinct objects that did not exist in [s]; and each holds a record
    with the fields of its input note and a finger. *)
Definition returns_fresh_copies (s s' : Store) (ins : list Note)
    (out : list loc) : Prop :=
  (forall (l : loc) (n : Note), s !! l = Some n -> s' !! l = Some n) /\
  Forall (fun l : loc => (length s <= l < length s')%nat) out /\
  NoDup out /\
  Forall2 (fun (n : Note) (l : loc) =>
             exists r : Note,
               s' !! l = Some r /\ same_fields n r /\ is_Some (finger r))
          ins out.

(** The caller's objects of the unit test "does not mutate input notes",
    with a second note for the other hand. *)
Definition callerStore : Store :=
  [ mkNote false 60 0 (Some 500) None None;
    mkNote true 48 0 (Some 500) None (Some 2) ].

(** [l] refers to an object of [s]. *)
Definition valid_loc (s : Store) (l : loc) : Prop := (l < length s)%nat.

(** ** More inputs of the unit tests *)

(** "predicts fingerings for right hand notes" *)
Definition rightHandNotes : list Note :=
  [ mkNote false 60 0 (Some 500) None None;
    mkNote false 62 500 (Some 500) None None;
    mkNote false 64 1000 (Some 500) None None ].

(** "handles chord notes at the same time" *)
Definition chordNotes : list Note :=
  [ mkNote false 64 0 (Some 500) None None;
    mkNote false 60 0 (Some 500) None None;
    mkNote false 67 0 (Some 500) None None ].

(** The fingers of the notes that a run returned. *)
Definition fingersOf {W : Type} (r : option (list Note * W))
  : option (list (option number)) :=
  option_map (fun p => map finger (fst p)) r.

(** The pitches of the notes that a run returned. *)
Definition pitchesOf {W : Type} (r : option (list Note * W))
  : option (list number) :=
  option_map (fun p => map note (fst p)) r.

(** * Further vocabulary *)

(** The oracle never returns more than five scores. *)
Definition at_most_five_scores {W : Type} (model : InferenceSession W)
  : Prop :=
  forall tokenData w logits w',
    model tokenData w = Some (logits, w') -> (length logits <= 5)%nat.

(** [r] has a finger between 1 and 5. *)
Definition finger_in_range (r : Note) : Prop :=
  exists f : number, finger r = Some f /\ 1 <= f /\ f <= 5.

(** [n] without its finger. *)
Definition clearFinger (n : Note) : Note :=
  {| left := left n; note := note n; time := time n;
     duration := duration n; velocity := velocity n; finger := None |}.

(** A session that answers as [model] does for as many requests as its
    budget, the second component of the state, allows, and fails from then
    on. *)
Definition limited {W : Type} (model : InferenceSession W)
  : InferenceSession (W * nat) :=
  fun tokenData w =>
    match snd w with
    | O => None
    | S budget =>
        match model tokenData (fst w) with
        | Some (logits, w') => Some (logits, (w', budget))
        | None => None
        end
    end.

(** A session with six scores, the largest at index 5. *)
Definition sixScoreSession : InferenceSession unit :=
  fun _ w => Some ([0; 0; 0; 0; 0; 1], w).

(** A pitch of the keyboard, A0 to C8, or the sentinel of an absent
    pitch. *)
Definition pitch_or_absent (p : number) : Prop :=
  p < 0 \/ (21 <= p /\ p <= 108).

(** [v] is a normalised feature. *)
Definition in_unit_range (v : number) : Prop := -1 <= v /\ v <= 1.

(** No left-hand note stands after a right-hand note of the same onset and
    pitch. *)
Fixpoint lefts_first (l : list Note) : Prop :=
  match l with
  | [] => True
  | a :: l' =>
      (left a = false ->
       Forall (fun b => left b = true ->
                        ~ (time b == time a /\ note b == note a)) l') /\
      lefts_first l'
  end.

(** The same for a comparator [cmp] and a test [p] in general: no element
    that passes [p] stands after an element that fails it unless it
    compares strictly above it. *)
Fixpoint ties_first {A : Type} (cmp : A -> A -> number) (p : A -> bool)
    (l : list A) : Prop :=
  match l with
  | [] => True
  | a :: l' =>
      (p a = false ->
       Forall (fun b => p b = true -> ~ cmp_le cmp b a) l') /\
      ties_first cmp p l'
  end.

(** * The demo's model runner ([demo/src/model-runner.ts]) *)

(** A note as the MusicXML parser of the demo hands it over; [E] is the
    type of the reference to the XML element, which the runner does not
    read. *)
Record ParsedNote (E : Type) : Type := mkParsedNote {
  pn_midi : number;
  pn_left : bool;
  pn_time : number;
  pn_duration : number;
  pn_finger : option number;
  pn_element : E
}.
Arguments mkParsedNote {E} _ _ _ _ _ _.
Arguments pn_midi {E} _.
Arguments pn_left {E} _.
Arguments pn_time {E} _.
Arguments pn_duration {E} _.
Arguments pn_finger {E} _.
Arguments pn_element {E} _.

(** The element of [inputNotes] made from [n]; the finger is copied when
    there is one. *)
Definition toInputNote {E : Type} (n : ParsedNote E) : Note :=
  {| left := pn_left n; note := pn_midi n; time := pn_time n;
     duration := Some (pn_duration n); velocity := None;
     finger := pn_finger n |}.

(** [runPrediction] with the models loaded: the right hand runs first, the
    results are joined left before right and sorted, and the list of their
    fingers is returned. *)
Definition runPrediction {E W : Type} (parsedNotes : list (ParsedNote E))
    (models : Models W) : M W (list (option number)) :=
  let inputNotes := map toInputNote parsedNotes in
  do rightResults <-
    predictHandFingerings (right_model models) inputNotes false;
  do leftResults <-
    predictHandFingerings (left_model models) inputNotes true;
  let allResults := leftResults ++ rightResults in
  ret (map finger (sortNotes allResults)).


(** Middle C at the same time in both hands, the right hand listed
    first. *)
Definition parsedUnisonRight : ParsedNote unit :=
  mkParsedNote 60 false 0 500 (Some 1) tt.

Definition parsedUnisonLeft : ParsedNote unit :=
  mkParsedNote 60 true 0 500 (Some 5) tt.


(** Two notes of the same hand that agree in onset and pitch are the same
    note. *)
Definition ties_are_copies (notes : list Note) : Prop :=
  forall a b : Note,
    In a notes -> In b notes -> left a = left b ->
    time a == time b -> note a == note b -> a = b.

(** The session [model] with [f] applied to each of its scores. *)
Definition rescored {W : Type} (f : number -> number)
    (model : InferenceSession W) : InferenceSession W :=
  fun tokenData w =>
    match model tokenData w with
    | Some (logits, w') => Some (map f logits, w')
    | None => None
    end.

(** ** The demo's serializer (demo/src/musicxml-injector.ts)

    [XMLSerializer.serializeToString] is the browser's: it is an argument
    of the model.  Text is a [string]; the mark tested and the declaration
    added are ASCII. *)

Module Xml.
Import Stdlib.Strings.String Stdlib.Strings.Ascii.
Local Open Scope string_scope.

(* String.prototype.startsWith *)
Fixpoint startsWith (s p : string) {struct p} : bool :=
  match p with
  | EmptyString => true
  | String c p' =>
      match s with
      | EmptyString => false
      | String d s' => if ascii_dec c d then startsWith s' p' else false
      end
  end.

Definition quote : string := String (ascii_of_nat 34) EmptyString.
Definition newline : string := String (ascii_of_nat 10) EmptyString.

Definition xmlMark : string := "<?xml".

Definition xmlDeclaration : string :=
  "<?xml version=" ++ quote ++ "1.0" ++ quote ++ " encoding=" ++ quote
  ++ "UTF-8" ++ quote ++ "?>" ++ newline.

Definition serializeXML {Document : Type}
    (serializeToString : Document -> string) (doc : Document) : string :=
  let xml := serializeToString doc in
  if negb (startsWith xml xmlMark) then xmlDeclaration ++ xml else xml.

(** A document the serializer writes without a declaration. *)
Definition bareScore : string := "<score-partwise/>".

End Xml.

(** * Properties *)

(** ** The unit tests of the package, replayed on the embedding *)

(** "returns empty array for empty input": no note, no call. *)
Example test_empty_input :
  predictFingerings []
    (mkModels (createMockSession 2) (createMockSession 2)) []
  = Some ([], []).
Proof. reflexivity. Qed.

(** "predicts fingerings for right hand notes" *)
Example test_right_hand :
  fingersOf (predictFingerings rightHandNotes
               (mkModels (createMockSession 2) (createMockSession 0)) [])
  = Some [Some 1; Some 1; Some 1].
Proof. vm_compute. reflexivity. Qed.

(** "preserves fixed fingerings" *)
Example test_preserves_fixed :
  fingersOf (predictFingerings fixedNotes
               (mkModels (createMockSession 2) (createMockSession 0)) [])
  = Some [Some 3; Some 1; Some 5].
Proof. vm_compute. reflexivity. Qed.

(** "handles chord notes at the same time" *)
Example test_chord_sorted :
  pitchesOf (predictFingerings chordNotes
               (mkModels (createMockSession 2) (createMockSession 1)) [])
  = Some [60; 64; 67].
Proof. vm_compute. reflexivity. Qed.

(** "calls model once per note", "passes correct tensor shape to model" *)
Example test_calls_once_per_note :
  option_map (fun p => map length (snd p))
    (predictHandFingerings (createMockSession 2) rightHandNotes false [])
  = Some [130; 130; 130]%nat.
Proof. vm_compute. reflexivity. Qed.

(** "current note token has pitch class and token_type=0.5": middle C. *)
Example test_current_token :
  token_at (buildTokens 60 (fingerLastMidi initialFingerState)
              (fingerLastTime initialFingerState) []) 5 0 = Some (3 # 11) /\
  token_at (buildTokens 60 (fingerLastMidi initialFingerState)
              (fingerLastTime initialFingerState) []) 5 3 = Some (1 # 2).
Proof. split; vm_compute; reflexivity. Qed.

(** ** Comparisons *)

Lemma Qltb_lt (x y : Q) : Qltb x y = true <-> x < y.
Proof.
  unfold Qltb. rewrite negb_true_iff.
  split.
  - intros H. apply Qnot_le_lt. intros Hle.
    apply Qle_bool_iff in Hle. congruence.
  - intros H. destruct (Qle_bool y x) eqn:E; [|reflexivity].
    apply Qle_bool_iff in E. lra.
Qed.

Lemma Qltb_ge (x y : Q) : Qltb x y = false <-> y <= x.
Proof.
  unfold Qltb. rewrite negb_false_iff. apply Qle_bool_iff.
Qed.

Lemma Qgeb_ge (x y : Q) : Qgeb x y = true <-> y <= x.
Proof. apply Qle_bool_iff. Qed.

Lemma Qgeb_lt (x y : Q) : Qgeb x y = false <-> x < y.
Proof.
  unfold Qgeb. split.
  - intros H. apply Qnot_le_lt. intros Hle.
    apply Qle_bool_iff in Hle. congruence.
  - intros H. destruct (Qle_bool y x) eqn:E; [|reflexivity].
    apply Qle_bool_iff in E. lra.
Qed.

Lemma is_fixed_finger_spec (x : option number) :
  is_fixed_finger x = true <-> exists f, x = Some f /\ 1 <= f /\ f <= 5.
Proof.
  unfold is_fixed_finger. destruct x as [f|].
  - rewrite andb_true_iff, Qgeb_ge, Qle_bool_iff. split.
    + intros [? ?]. eauto.
    + intros (f' & [= <-] & ? & ?). auto.
  - split; [discriminate | intros (f & [=] & _)].
Qed.

Lemma compareNotes_le (a b : Note) :
  compareNotes a b <= 0 <-> note_le a b.
Proof.
  unfold compareNotes, js_or, note_le.
  destruct (Qeq_bool (time a - time b) 0) eqn:E.
  - apply Qeq_bool_iff in E. split.
    + intros H. right. split; lra.
    + intros [H | [_ H]]; lra.
  - apply Qeq_bool_neq in E. split.
    + intros H. left. apply Qnot_le_lt. intros Hle. apply E. lra.
    + intros [H | [H _]]; [lra | exfalso; apply E; lra].
Qed.

Lemma compareNotes_total (a b : Note) :
  ~ compareNotes a b <= 0 -> compareNotes b a <= 0.
Proof.
  rewrite !compareNotes_le. unfold note_le. intros H.
  destruct (Qlt_le_dec (time b) (time a)) as [Hlt | Hle]; [now left|].
  destruct (Qlt_le_dec (time a) (time b)) as [Hlt' | Hle'].
  - exfalso. apply H. now left.
  - right. split; [lra|].
    destruct (Qlt_le_dec (note a) (note b)) as [Hn | Hn]; [|exact Hn].
    exfalso. apply H. right. split; lra.
Qed.

(** ** The sort *)

Section SortFacts.
Context {A : Type} (cmp : A -> A -> number).

Lemma sort_insert_perm (x : A) (l : list A) :
  Permutation (x :: l) (sort_insert cmp x l).
Proof.
  induction l as [|y l IH]; simpl; [reflexivity|].
  destruct (Qle_bool (cmp x y) 0); [reflexivity|].
  rewrite perm_swap. now apply perm_skip.
Qed.

Lemma js_sort_perm (l : list A) : Permutation l (js_sort cmp l).
Proof.
  induction l as [|x l IH]; simpl; [reflexivity|].
  rewrite <- sort_insert_perm. now apply perm_skip.
Qed.

Lemma js_sort_length (l : list A) : length (js_sort cmp l) = length l.
Proof. symmetry. apply Permutation_length, js_sort_perm. Qed.

(** Adjacent elements of the result are in order, as soon as the comparator
    never puts two elements strictly above each other. *)
Hypothesis cmp_total : forall x y, ~ cmp x y <= 0 -> cmp y x <= 0.

Lemma sort_insert_sorted (x : A) (l : list A) :
  Sorted (cmp_le cmp) l -> Sorted (cmp_le cmp) (sort_insert cmp x l).
Proof.
  induction 1 as [|y l Hl IH Hhd]; simpl.
  - repeat constructor.
  - destruct (Qle_bool (cmp x y) 0) eqn:E.
    + apply Qle_bool_iff in E. repeat constructor; assumption.
    + assert (Hyx : cmp_le cmp y x).
      { apply cmp_total. intros Hle. apply Qle_bool_iff in Hle. congruence. }
      constructor; [exact IH|].
      destruct Hhd as [|z l' Hyz]; simpl.
      * now constructor.
      * destruct (Qle_bool (cmp x z) 0); now constructor.
Qed.

Lemma js_sort_sorted (l : list A) : Sorted (cmp_le cmp) (js_sort cmp l).
Proof.
  induction l as [|x l IH]; simpl; [constructor|].
  now apply sort_insert_sorted.
Qed.

End SortFacts.

(** Two lists that agree on what the comparator reads are rearranged in the
    same way. *)
Section SortTransfer.
Context {A B : Type} (cmpA : A -> A -> number) (cmpB : B -> B -> number).
Context (R : A -> B -> Prop).
Hypothesis R_cmp :
  forall a b a' b', R a b -> R a' b' -> cmpA a a' = cmpB b b'.

Lemma sort_insert_Forall2 a b la lb :
  R a b -> Forall2 R la lb ->
  Forall2 R (sort_insert cmpA a la) (sort_insert cmpB b lb).
Proof.
  intros Hab H. induction H as [|a' b' la lb Hab' H IH]; simpl.
  - repeat constructor. exact Hab.
  - rewrite (R_cmp a b a' b' Hab Hab').
    destruct (Qle_bool (cmpB b b') 0); repeat constructor; assumption.
Qed.

Lemma js_sort_Forall2 la lb :
  Forall2 R la lb -> Forall2 R (js_sort cmpA la) (js_sort cmpB lb).
Proof.
  induction 1; simpl; [constructor|].
  now apply sort_insert_Forall2.
Qed.

End SortTransfer.

Lemma Sorted_adjacent {A : Type} (R : A -> A -> Prop) (l : list A) :
  Sorted R l ->
  forall (i : nat) (a b : A), l !! i = Some a -> l !! S i = Some b -> R a b.
Proof.
  induction 1 as [|x l Hl IH Hhd]; intros i a b Ha Hb.
  - discriminate.
  - destruct i as [|i]; simpl in *.
    + injection Ha as <-. destruct Hhd as [|y l' Hxy]; [discriminate|].
      simpl in Hb. now injection Hb as <-.
    + eapply IH; eassumption.
Qed.

(** ** The monad *)

Lemma bind_Some {W A B : Type} (m : M W A) (k : A -> M W B) w b w' :
  bind m k w = Some (b, w') <->
  exists a w1, m w = Some (a, w1) /\ k a w1 = Some (b, w').
Proof.
  unfold bind. destruct (m w) as [[a w1]|].
  - split; [eauto|]. now intros (a' & w1' & [= <- <-] & H).
  - split; [discriminate|]. now intros (? & ? & [=] & _).
Qed.

Lemma ret_Some {W A : Type} (a b : A) (w w' : W) :
  ret a w = Some (b, w') <-> a = b /\ w = w'.
Proof. unfold ret. split; [now intros [= -> ->] | now intros [-> ->]]. Qed.

(** ** One note *)

Lemma resolveFinger_fixed (n : Note) (pred : nat) (f : number) :
  finger n = Some f -> 1 <= f -> f <= 5 -> resolveFinger n pred = (n, f).
Proof.
  intros Hf H1 H5. unfold resolveFinger. rewrite Hf.
  apply Qgeb_ge in H1. apply Qle_bool_iff in H5. now rewrite H1, H5.
Qed.

Lemma resolveFinger_predicted (n : Note) (pred : nat) :
  is_fixed_finger (finger n) = false ->
  resolveFinger n pred =
    (with_finger n (inject_Z (Z.of_nat pred) + 1),
     inject_Z (Z.of_nat pred) + 1).
Proof.
  unfold is_fixed_finger, resolveFinger.
  destruct (finger n) as [f|]; [|reflexivity]. now intros ->.
Qed.

Lemma resolveFinger_cases (n : Note) (pred : nat) :
  (exists f, finger n = Some f /\ 1 <= f /\ f <= 5 /\
             resolveFinger n pred = (n, f)) \/
  (is_fixed_finger (finger n) = false /\
   resolveFinger n pred =
     (with_finger n (inject_Z (Z.of_nat pred) + 1),
      inject_Z (Z.of_nat pred) + 1)).
Proof.
  destruct (is_fixed_finger (finger n)) eqn:E.
  - left. apply is_fixed_finger_spec in E as (f & Hf & H1 & H5).
    exists f. repeat split; try assumption.
    now apply resolveFinger_fixed.
  - right. split; [reflexivity|]. now apply resolveFinger_predicted.
Qed.

Lemma resolveFinger_finger (n : Note) (pred : nat) :
  finger (fst (resolveFinger n pred)) = Some (snd (resolveFinger n pred)).
Proof.
  destruct (resolveFinger_cases n pred) as [(f & Hf & _ & _ & ->) | [_ ->]];
    simpl; [exact Hf | reflexivity].
Qed.

Lemma resolveFinger_same_fields (n : Note) (pred : nat) :
  same_fields n (fst (resolveFinger n pred)).
Proof.
  destruct (resolveFinger_cases n pred) as [(f & _ & _ & _ & ->) | [_ ->]];
    simpl; repeat split.
Qed.

Lemma resolveFinger_keeps_fixed (n : Note) (pred : nat) :
  keeps_fixed n (fst (resolveFinger n pred)).
Proof.
  intros f Hf H1 H5. now rewrite (resolveFinger_fixed n pred f).
Qed.

Section HandFacts.
Context {W : Type} (model : InferenceSession W).

Lemma noteStep_Some n rest st w r st' w' :
  noteStep model n rest st w = Some ((r, st'), w') <->
  exists logits,
    model (buildTokens (note n) (fingerLastMidi st) (fingerLastTime st)
             (map (lookaheadEntry (time n)) (take 20 rest))) w
      = Some (logits, w') /\
    r = fst (resolveFinger n (argmax logits)) /\
    st' = nextFingerState st n (snd (resolveFinger n (argmax logits))) rest.
Proof.
  unfold noteStep. rewrite bind_Some. split.
  - intros (logits & w1 & Hm & Hk). exists logits.
    destruct (resolveFinger n (argmax logits)) as [result fg].
    apply ret_Some in Hk as [[= <- <-] <-]. auto.
  - intros (logits & Hm & -> & ->). exists logits, w'. split; [exact Hm|].
    now destruct (resolveFinger n (argmax logits)).
Qed.

Lemma handLoop_cons n rest st w :
  handLoop model (n :: rest) st w =
    match noteStep model n rest st w with
    | Some ((result, st'), w1) =>
        match handLoop model rest st' w1 with
        | Some (results, w2) => Some (result :: results, w2)
        | None => None
        end
    | None => None
    end.
Proof.
  simpl. unfold bind.
  destruct (noteStep model n rest st w) as [[[result st'] w1]|];
    [|reflexivity].
  now destruct (handLoop model rest st' w1) as [[results w2]|].
Qed.

(** Whatever holds between a note and each record that [resolveFinger] can
    make of it holds, position by position, between the notes of a hand
    and the results. *)
Lemma handLoop_Forall2 (P : Note -> Note -> Prop) :
  (forall n pred, P n (fst (resolveFinger n pred))) ->
  forall sorted st w out w',
    handLoop model sorted st w = Some (out, w') -> Forall2 P sorted out.
Proof.
  intros HP sorted. induction sorted as [|n rest IH]; intros st w out w' H.
  - apply ret_Some in H as [<- _]. constructor.
  - simpl in H. apply bind_Some in H as ([r st1] & w1 & Hstep & H).
    apply bind_Some in H as (results & w2 & Hrest & H).
    apply ret_Some in H as [<- _].
    apply noteStep_Some in Hstep as (logits & _ & -> & _).
    constructor; [apply HP | eapply IH; eassumption].
Qed.

Lemma predictHandFingerings_Forall2 (P : Note -> Note -> Prop) :
  (forall n pred, P n (fst (resolveFinger n pred))) ->
  forall notes isLeft w out w',
    predictHandFingerings model notes isLeft w = Some (out, w') ->
    Forall2 P (handOrder notes isLeft) out.
Proof.
  intros HP notes isLeft w out w'. unfold predictHandFingerings, handOrder.
  destruct (List.filter _ notes) as [|n l] eqn:E; simpl length.
  - intros H. apply ret_Some in H as [<- _]. constructor.
  - change (S (length l) =? 0)%nat with false. cbv iota.
    now apply handLoop_Forall2.
Qed.

End HandFacts.

Lemma same_fields_compare (a b a' b' : Note) :
  same_fields a b -> same_fields a' b' ->
  compareNotes a a' = compareNotes b b'.
Proof.
  intros (_ & Hn & Ht & _) (_ & Hn' & Ht' & _).
  unfold compareNotes. now rewrite Hn, Ht, Hn', Ht'.
Qed.

Lemma predictFingerings_Some {W : Type} (notes : list Note) (m : Models W)
    w out w' :
  predictFingerings notes m w = Some (out, w') <->
  exists leftResults rightResults w1,
    predictHandFingerings (left_model m) notes true w
      = Some (leftResults, w1) /\
    predictHandFingerings (right_model m) notes false w1
      = Some (rightResults, w') /\
    out = sortNotes (leftResults ++ rightResults).
Proof.
  unfold predictFingerings. rewrite bind_Some. split.
  - intros (l & w1 & Hl & H). apply bind_Some in H as (r & w2 & Hr & H).
    apply ret_Some in H as [<- <-]. eauto 6.
  - intros (l & r & w1 & Hl & Hr & ->). exists l, w1. split; [exact Hl|].
    apply bind_Some. exists r, w'. split; [exact Hr | reflexivity].
Qed.

(** The results of both hands, merged: position by position they come from
    [outputOrder]. *)
Lemma predictFingerings_Forall2 {W : Type} (P : Note -> Note -> Prop) :
  (forall n pred, P n (fst (resolveFinger n pred))) ->
  forall (notes : list Note) (m : Models W) w out w',
    predictFingerings notes m w = Some (out, w') ->
    Forall2 (fun n r => same_fields n r /\ P n r) (outputOrder notes) out.
Proof.
  intros HP notes m w out w' H.
  apply predictFingerings_Some in H as (l & r & w1 & Hl & Hr & ->).
  unfold outputOrder, sortNotes.
  apply (js_sort_Forall2 compareNotes compareNotes).
  - intros a b a' b' [Hab _] [Hab' _]. now apply same_fields_compare.
  - apply Forall2_app.
    + eapply (predictHandFingerings_Forall2 _ (fun n r => same_fields n r /\ P n r));
        [|exact Hl].
      intros n pred. split; [apply resolveFinger_same_fields | apply HP].
    + eapply (predictHandFingerings_Forall2 _ (fun n r => same_fields n r /\ P n r));
        [|exact Hr].
      intros n pred. split; [apply resolveFinger_same_fields | apply HP].
Qed.

(** [outputOrder] rearranges the input, nothing more. *)
Lemma filter_hands_perm (notes : list Note) :
  Permutation notes
    (List.filter (fun n => Bool.eqb (left n) true) notes ++
     List.filter (fun n => Bool.eqb (left n) false) notes).
Proof.
  induction notes as [|n notes IH]; simpl; [reflexivity|].
  destruct (left n); simpl.
  - now apply perm_skip.
  - rewrite <- Permutation_middle. now apply perm_skip.
Qed.

Lemma handOrder_perm (notes : list Note) (isLeft : bool) :
  Permutation (List.filter (fun n => Bool.eqb (left n) isLeft) notes)
    (handOrder notes isLeft).
Proof. apply js_sort_perm. Qed.

Lemma outputOrder_perm (notes : list Note) :
  Permutation notes (outputOrder notes).
Proof.
  unfold outputOrder, handOrder, sortNotes.
  rewrite <- js_sort_perm, <- !js_sort_perm. apply filter_hands_perm.
Qed.

(** ** The run returns whenever the oracle answers *)

Section Returns.
Context {W : Type} (model : InferenceSession W).
Hypothesis model_answers : never_fails model.

Lemma handLoop_returns sorted st w : is_Some (handLoop model sorted st w).
Proof.
  revert st w. induction sorted as [|n rest IH]; intros st w; simpl.
  - now eexists.
  - unfold bind at 1, noteStep, bind at 1.
    destruct (model_answers
      (buildTokens (note n) (fingerLastMidi st) (fingerLastTime st)
         (map (lookaheadEntry (time n)) (take 20 rest))) w) as [[logits w1] ->].
    destruct (resolveFinger n (argmax logits)) as [result fg]. simpl.
    unfold bind.
    destruct (IH (nextFingerState st n fg rest) w1) as [[results w2] ->].
    now eexists.
Qed.

Lemma predictHandFingerings_returns notes isLeft w :
  is_Some (predictHandFingerings model notes isLeft w).
Proof.
  unfold predictHandFingerings.
  destruct (length _ =? 0)%nat; [now eexists | apply handLoop_returns].
Qed.

End Returns.

Lemma predictFingerings_returns {W : Type} (notes : list Note) (m : Models W) w :
  never_fails (left_model m) -> never_fails (right_model m) ->
  is_Some (predictFingerings notes m w).
Proof.
  intros Hl Hr. unfold predictFingerings, bind.
  destruct (predictHandFingerings_returns _ Hl notes true w) as [[l w1] ->].
  destruct (predictHandFingerings_returns _ Hr notes false w1) as [[r w2] ->].
  now eexists.
Qed.

(** ** Fixed fingers *)

(** C1. Constraint preservation.  [predictHandFingerings] and
    [predictFingerings] return whenever the oracle answers, and whenever
    they return, the output lines up position by position with the input
    notes in processing order ([handOrder], a rearrangement of the notes of
    the hand, respectively [outputOrder], a rearrangement of all the input
    notes), each output note has the fields of its input note, and where
    the input note carries a finger [f] with [1 <= f <= 5] the output
    note's finger is [f].  Nothing is assumed about the scores that the
    oracle returns. *)
Theorem fixed_finger_preserved {W : Type} (model : InferenceSession W)
    (m : Models W) (notes : list Note) :
  (forall isLeft,
      Permutation (List.filter (fun n => Bool.eqb (left n) isLeft) notes)
        (handOrder notes isLeft)) /\
  Permutation notes (outputOrder notes) /\
  (never_fails model ->
   forall isLeft w, is_Some (predictHandFingerings model notes isLeft w)) /\
  (never_fails (left_model m) -> never_fails (right_model m) ->
   forall w, is_Some (predictFingerings notes m w)) /\
  (forall isLeft w out w',
      predictHandFingerings model notes isLeft w = Some (out, w') ->
      Forall2 (fun n r => same_fields n r /\ keeps_fixed n r)
        (handOrder notes isLeft) out) /\
  (forall w out w',
      predictFingerings notes m w = Some (out, w') ->
      Forall2 (fun n r => same_fields n r /\ keeps_fixed n r)
        (outputOrder notes) out).
Proof.
  split; [intros isLeft; apply handOrder_perm|].
  split; [apply outputOrder_perm|].
  split; [intros H isLeft w; now apply predictHandFingerings_returns|].
  split; [intros Hl Hr w; now apply predictFingerings_returns|].
  split.
  - intros isLeft w out w' H.
    eapply (predictHandFingerings_Forall2 model
              (fun n r => same_fields n r /\ keeps_fixed n r)); [|exact H].
    intros n pred.
    split; [apply resolveFinger_same_fields | apply resolveFinger_keeps_fixed].
  - intros w out w' H.
    eapply (predictFingerings_Forall2 keeps_fixed); [|exact H].
    apply resolveFinger_keeps_fixed.
Qed.

Lemma fixed_finger_preserved_witness :
  Forall2 (fun n r => same_fields n r /\ keeps_fixed n r)
    (handOrder fixedNotes false)
    [ mkNote false 60 0 (Some 500) None (Some 3);
      mkNote false 62 500 (Some 500) None (Some 1);
      mkNote false 64 1000 (Some 500) None (Some 5) ] /\
  Forall2 (fun n r => same_fields n r /\ keeps_fixed n r)
    (outputOrder fixedNotes)
    [ mkNote false 60 0 (Some 500) None (Some 3);
      mkNote false 62 500 (Some 500) None (Some 1);
      mkNote false 64 1000 (Some 500) None (Some 5) ].
Proof.
  pose proof (fixed_finger_preserved (createMockSession 0)
                (mkModels (createMockSession 2) (createMockSession 0))
                fixedNotes) as (_ & _ & _ & _ & Hhand & Hboth).
  split.
  - eapply (Hhand false []). vm_compute. reflexivity.
  - eapply (Hboth []). vm_compute. reflexivity.
Defined.

(** C10. A [finger] field holding any number [f] with [1 <= f <= 5] is a
    fixed constraint, integer or not.  [predictHandFingerings] returns
    whenever the oracle answers, and the note returned at the position of
    such an input note has finger [f] and the other fields of the input
    note; the finger that the predictor goes on with is [f] whatever index
    the oracle's scores select.  There is no hypothesis that [f] is an
    integer. *)
Theorem any_number_in_range_is_fixed {W : Type} (model : InferenceSession W)
    (notes : list Note) (isLeft : bool) (w : W) (i : nat) (n : Note)
    (f : number) :
  handOrder notes isLeft !! i = Some n ->
  finger n = Some f -> 1 <= f -> f <= 5 ->
  (never_fails model -> is_Some (predictHandFingerings model notes isLeft w)) /\
  (forall (out : list Note) (w' : W),
      predictHandFingerings model notes isLeft w = Some (out, w') ->
      exists r, out !! i = Some r /\ finger r = Some f /\ same_fields n r) /\
  (forall pred, snd (resolveFinger n pred) = f).
Proof.
  intros Hi Hf H1 H5. split; [|split].
  - intros Hmodel. now apply predictHandFingerings_returns.
  - intros out w' Hrun.
    apply (predictHandFingerings_Forall2 model
             (fun n r => same_fields n r /\ keeps_fixed n r)) in Hrun.
    2: { intros n' pred. split;
           [apply resolveFinger_same_fields | apply resolveFinger_keeps_fixed]. }
    destruct (Forall2_lookup_l _ _ _ _ _ Hrun Hi) as (r & Hr & Hsame & Hkeep).
    exists r. repeat split; try apply Hsame; [exact Hr|].
    now apply Hkeep.
  - intros pred. now rewrite (resolveFinger_fixed n pred f).
Qed.

Lemma any_number_in_range_is_fixed_witness :
  (exists r,
      [ mkNote false 60 0 (Some 500) None (Some 1);
        mkNote false 62 500 (Some 500) None (Some (5 # 2));
        mkNote false 64 1000 (Some 500) None (Some 1) ] !! 1%nat = Some r /\
      finger r = Some (5 # 2) /\
      same_fields (mkNote false 62 500 (Some 500) None (Some (5 # 2))) r) /\
  (forall pred,
      snd (resolveFinger (mkNote false 62 500 (Some 500) None (Some (5 # 2)))
             pred) = 5 # 2).
Proof.
  destruct (any_number_in_range_is_fixed (createMockSession 0)
              halfFingerNotes false [] 1%nat
              (mkNote false 62 500 (Some 500) None (Some (5 # 2))) (5 # 2))
    as (_ & Hout & Hpred).
  - reflexivity.
  - reflexivity.
  - discriminate.
  - discriminate.
  - split; [|exact Hpred]. eapply Hout. vm_compute. reflexivity.
Defined.

(** ** Order of the output *)

(** C2. Sort postcondition.  [predictFingerings] returns whenever the two
    oracles answer, and in the list that it returns every two adjacent
    notes [a], [b] satisfy [time a < time b], or [time a == time b] and
    [note a <= note b]; this holds for every input list, in whatever order
    and however split between the hands, and for every pair of oracles. *)
Theorem output_sorted {W : Type} (notes : list Note) (m : Models W) (w : W) :
  (never_fails (left_model m) -> never_fails (right_model m) ->
   is_Some (predictFingerings notes m w)) /\
  (forall (out : list Note) (w' : W),
      predictFingerings notes m w = Some (out, w') ->
      forall (i : nat) (a b : Note),
        out !! i = Some a -> out !! S i = Some b ->
        time a < time b \/ (time a == time b /\ note a <= note b)).
Proof.
  split; [intros Hl Hr; now apply predictFingerings_returns|].
  intros out w' H.
  apply predictFingerings_Some in H as (l & r & w1 & _ & _ & ->).
  intros i a b Ha Hb. apply compareNotes_le.
  eapply (Sorted_adjacent (cmp_le compareNotes)); [|exact Ha|exact Hb].
  apply js_sort_sorted, compareNotes_total.
Qed.

Lemma output_sorted_witness :
  time (mkNote false 60 0 (Some 500) None (Some 3))
    < time (mkNote true 48 1000 (Some 500) None (Some 3)) \/
  (time (mkNote false 60 0 (Some 500) None (Some 3))
     == time (mkNote true 48 1000 (Some 500) None (Some 3)) /\
   note (mkNote false 60 0 (Some 500) None (Some 3))
     <= note (mkNote true 48 1000 (Some 500) None (Some 3))).
Proof.
  eapply (proj2 (output_sorted scrambledNotes
                   (mkModels (createMockSession 2) (createMockSession 2)) [])
           [ mkNote true 40 0 (Some 500) None (Some 3);
             mkNote false 60 0 (Some 500) None (Some 3);
             mkNote true 48 1000 (Some 500) None (Some 3);
             mkNote false 72 1000 (Some 500) None (Some 3) ])
    with (i := 1%nat).
  - vm_compute. reflexivity.
  - reflexivity.
  - reflexivity.
Defined.

(** ** Remainder and floored modulo *)

Lemma Qfloor_unique (x : Q) (z : Z) :
  inject_Z z <= x -> x < inject_Z z + 1 -> Qfloor x = z.
Proof.
  intros Hlo Hhi. apply Z.le_antisymm.
  - apply Z.lt_succ_r. rewrite Zlt_Qlt.
    eapply Qle_lt_trans; [apply Qfloor_le|].
    unfold Z.succ. rewrite inject_Z_plus. exact Hhi.
  - rewrite <- (Qfloor_Z z). now apply Qfloor_resp_le.
Qed.

Lemma Qceiling_unique (x : Q) (z : Z) :
  inject_Z z - 1 < x -> x <= inject_Z z -> Qceiling x = z.
Proof.
  intros Hlo Hhi. unfold Qceiling.
  rewrite (Qfloor_unique (- x) (- z)); [lia | |]; rewrite inject_Z_opp; lra.
Qed.

Lemma js_trunc_nonneg (x : Q) (z : Z) :
  0 <= x -> inject_Z z <= x -> x < inject_Z z + 1 -> js_trunc x = z.
Proof.
  intros H Hlo Hhi. unfold js_trunc. apply Qle_bool_iff in H. rewrite H.
  now apply Qfloor_unique.
Qed.

Lemma js_trunc_neg (x : Q) (z : Z) :
  x < 0 -> inject_Z z - 1 < x -> x <= inject_Z z -> js_trunc x = z.
Proof.
  intros H Hlo Hhi. unfold js_trunc.
  destruct (Qle_bool 0 x) eqn:E.
  - apply Qle_bool_iff in E. lra.
  - now apply Qceiling_unique.
Qed.

(** The remainder, given the truncated quotient. *)
Lemma js_rem_12 (x q : Q) (z : Z) :
  x == 12 * q -> js_trunc q = z -> js_rem x 12 == 12 * q - 12 * inject_Z z.
Proof.
  intros Hx <-. unfold js_rem.
  assert (Hq : x / 12 == q) by (rewrite Hx; field).
  assert (Ht : js_trunc (x / 12) = js_trunc q).
  { unfold js_trunc. rewrite (Qfloor_comp _ _ Hq).
    unfold Qceiling. rewrite (Qfloor_comp (- (x / 12)) (- q)) by now rewrite Hq.
    replace (Qle_bool 0 (x / 12)) with (Qle_bool 0 q); [reflexivity|].
    now rewrite Hq. }
  rewrite Ht, Hx. reflexivity.
Qed.

Lemma double_rem_is_mod (x : Q) :
  js_rem (js_rem x 12 + 12) 12 == Qmod x 12.
Proof.
  unfold Qmod.
  assert (Hx : x == 12 * (x / 12)) by field.
  remember (x / 12) as q eqn:Eq. clear Eq.
  pose proof (Qfloor_le q) as Hlo. pose proof (Qlt_floor q) as Hhi.
  rewrite inject_Z_plus in Hhi. change (inject_Z 1) with 1 in Hhi.
  remember (Qfloor q) as n eqn:En. clear En.
  destruct (Qlt_le_dec q 0) as [Hneg | Hpos].
  - destruct (Qeq_dec q (inject_Z n)) as [Hint | Hfrac].
    + (* a negative multiple of 12: remainders 0 and 0 *)
      assert (Hr1 : js_rem x 12 == 12 * q - 12 * inject_Z n).
      { apply js_rem_12; [exact Hx|]. apply js_trunc_neg; lra. }
      remember (js_rem x 12) as r1 eqn:Er. clear Er.
      rewrite (js_rem_12 (r1 + 12) 1 1); [change (inject_Z 1) with 1; lra|lra|].
      apply js_trunc_nonneg; change (inject_Z 1) with 1; lra.
    + (* negative otherwise: the first remainder is in (-12, 0) *)
      assert (Hfr : inject_Z n < q).
      { destruct (Qle_lt_or_eq _ _ Hlo) as [H | H]; [exact H|].
        exfalso. apply Hfrac. now symmetry. }
      assert (Hr1 : js_rem x 12 == 12 * q - 12 * (inject_Z n + 1)).
      { rewrite (js_rem_12 x q (n + 1) Hx).
        - rewrite inject_Z_plus. reflexivity.
        - apply js_trunc_neg; rewrite ?inject_Z_plus;
            change (inject_Z 1) with 1; lra. }
      remember (js_rem x 12) as r1 eqn:Er. clear Er.
      rewrite (js_rem_12 (r1 + 12) (q - inject_Z n) 0);
        [change (inject_Z 0) with 0; lra|lra|].
      apply js_trunc_nonneg; change (inject_Z 0) with 0; lra.
  - (* non-negative: the first remainder is in [0, 12) *)
    assert (Hr1 : js_rem x 12 == 12 * q - 12 * inject_Z n).
    { apply js_rem_12; [exact Hx|]. apply js_trunc_nonneg; lra. }
    remember (js_rem x 12) as r1 eqn:Er. clear Er.
    rewrite (js_rem_12 (r1 + 12) (q - inject_Z n + 1) 1);
      [change (inject_Z 1) with 1; lra|lra|].
    apply js_trunc_nonneg; change (inject_Z 1) with 1; lra.
Qed.

(** ** Layout of the token matrix *)

Lemma flat_map_rows_lookup {A B : Type} (f : A -> list B) (k : nat)
    (l : list A) :
  (forall a, length (f a) = k) ->
  forall i c : nat,
    (c < k)%nat ->
    flat_map f l !! (i * k + c)%nat =
      match l !! i with
      | Some a => f a !! c
      | None => None
      end.
Proof.
  intros Hk. induction l as [|a l IH]; intros i c Hc; simpl.
  - now destruct i.
  - destruct i as [|i]; simpl.
    + rewrite lookup_app_l by (rewrite Hk; exact Hc). reflexivity.
    + rewrite lookup_app_r by (rewrite Hk; lia).
      rewrite Hk. replace (k + i * k + c - k)%nat with (i * k + c)%nat by lia.
      now apply IH.
Qed.

Lemma flat_map_rows_length {A B : Type} (f : A -> list B) (k : nat)
    (l : list A) :
  (forall a, length (f a) = k) -> length (flat_map f l) = (length l * k)%nat.
Proof.
  intros Hk. induction l as [|a l IH]; simpl; [reflexivity|].
  rewrite length_app, Hk, IH. reflexivity.
Qed.

Lemma previous_token_length r m t : length (previous_token r m t) = 5%nat.
Proof. reflexivity. Qed.

Lemma lookahead_token_length r slot : length (lookahead_token r slot) = 5%nat.
Proof. now destruct slot. Qed.

Section TokenLayout.
Context (currentMidi : number) (lastMidi : list number)
        (lastTime : list ExtNum) (lookaheadNotes : list LookaheadNote).

Let tokens : list number :=
  buildTokens currentMidi lastMidi lastTime lookaheadNotes.
Let refMidiNorm : number := (currentMidi - 21) / 87.

Lemma buildTokens_length : length tokens = 130%nat.
Proof.
  unfold tokens, buildTokens. rewrite !length_app.
  rewrite (flat_map_rows_length _ 5) by (intros; apply previous_token_length).
  rewrite (flat_map_rows_length _ 5) by (intros; apply lookahead_token_length).
  reflexivity.
Qed.

Lemma token_at_previous (f c : nat) :
  (f < 5)%nat -> (c < 5)%nat ->
  token_at tokens f c =
    previous_token refMidiNorm (nth f lastMidi (-1)) (nth f lastTime PosInf)
      !! c.
Proof.
  intros Hf Hc. unfold token_at, tokens, buildTokens.
  rewrite lookup_app_l.
  2: { rewrite (flat_map_rows_length _ 5)
         by (intros; apply previous_token_length). simpl length. lia. }
  rewrite (flat_map_rows_lookup _ 5)
    by (try (intros; apply previous_token_length); exact Hc).
  rewrite lookup_seq_lt by exact Hf. reflexivity.
Qed.

Lemma token_at_current (c : nat) :
  (c < 5)%nat -> token_at tokens 5 c = current_token currentMidi !! c.
Proof.
  intros Hc. unfold token_at, tokens, buildTokens.
  rewrite lookup_app_r.
  2: { rewrite (flat_map_rows_length _ 5)
         by (intros; apply previous_token_length). simpl length. lia. }
  rewrite (flat_map_rows_length _ 5) by (intros; apply previous_token_length).
  simpl length. replace (5 * 5 + c - 5 * 5)%nat with c by lia.
  rewrite lookup_app_l by (simpl; exact Hc). reflexivity.
Qed.

Lemma token_at_lookahead (j c : nat) :
  (j < 20)%nat -> (c < 5)%nat ->
  token_at tokens (6 + j) c =
    lookahead_token refMidiNorm (lookaheadNotes !! j) !! c.
Proof.
  intros Hj Hc. unfold token_at, tokens, buildTokens.
  rewrite lookup_app_r.
  2: { rewrite (flat_map_rows_length _ 5)
         by (intros; apply previous_token_length). simpl length. lia. }
  rewrite (flat_map_rows_length _ 5) by (intros; apply previous_token_length).
  simpl length.
  rewrite lookup_app_r by (simpl length; lia). simpl length.
  replace ((6 + j) * 5 + c - 5 * 5 - 5)%nat with (j * 5 + c)%nat by lia.
  rewrite (flat_map_rows_lookup _ 5)
    by (try (intros; apply lookahead_token_length); exact Hc).
  rewrite lookup_seq_lt by exact Hj. reflexivity.
Qed.

End TokenLayout.

(** ** Pitch features *)

(** C5. For a present pitch (not negative) the offset feature of a
    previous-finger row and of a lookahead row is
    [(pitch - 21) / 87 - (currentPitch - 21) / 87], and the first feature of
    the current-note row is [((currentPitch - 21) mod 12) / 11]; for an
    absent pitch (negative, or a lookahead slot past the last future note)
    the offset feature is -1. *)
Theorem pitch_offset_features (currentMidi : number) (lastMidi : list number)
    (lastTime : list ExtNum) (lookaheadNotes : list LookaheadNote) :
  let tokens := buildTokens currentMidi lastMidi lastTime lookaheadNotes in
  (forall (f : nat) (midi : number),
      (f < 5)%nat -> lastMidi !! f = Some midi ->
      (0 <= midi ->
       token_at tokens f 0 =
         Some ((midi - 21) / 87 - (currentMidi - 21) / 87)) /\
      (midi < 0 -> token_at tokens f 0 = Some (-1))) /\
  (forall (j : nat) (ln : LookaheadNote),
      (j < 20)%nat -> lookaheadNotes !! j = Some ln ->
      (0 <= ln_midi ln ->
       token_at tokens (6 + j) 0 =
         Some ((ln_midi ln - 21) / 87 - (currentMidi - 21) / 87)) /\
      (ln_midi ln < 0 -> token_at tokens (6 + j) 0 = Some (-1))) /\
  (forall j : nat,
      (j < 20)%nat -> lookaheadNotes !! j = None ->
      token_at tokens (6 + j) 0 = Some (-1)) /\
  (0 <= currentMidi ->
   exists v : number,
     token_at tokens 5 0 = Some v /\ v == Qmod (currentMidi - 21) 12 / 11).
Proof.
  intros tokens. unfold tokens. split; [|split; [|split]].
  - intros f midi Hf Hmidi. rewrite token_at_previous by lia.
    rewrite (nth_lookup_Some _ _ _ _ Hmidi). simpl. split.
    + intros Hpos. apply Qgeb_ge in Hpos. now rewrite Hpos.
    + intros Hneg. apply Qgeb_lt in Hneg. now rewrite Hneg.
  - intros j ln Hj Hln. rewrite token_at_lookahead by lia.
    rewrite Hln. simpl. split.
    + intros Hpos. apply Qgeb_ge in Hpos. now rewrite Hpos.
    + intros Hneg. apply Qgeb_lt in Hneg. now rewrite Hneg.
  - intros j Hj Hnone. rewrite token_at_lookahead by lia.
    now rewrite Hnone.
  - intros Hpos. rewrite token_at_current by lia.
    simpl. eexists. split; [reflexivity|].
    unfold midiToPitchClass. apply Qltb_ge in Hpos. rewrite Hpos.
    now rewrite double_rem_is_mod.
Qed.

Lemma pitch_offset_features_witness :
  let tokens :=
    buildTokens 60 [64; -1; -1; -1; -1] [Fin 1; PosInf; PosInf; PosInf; PosInf]
      [ mkLookahead 67 300 None; mkLookahead (-1) 600 None ] in
  token_at tokens 0 0 = Some ((64 - 21) / 87 - (60 - 21) / 87) /\
  token_at tokens 1 0 = Some (-1) /\
  token_at tokens 6 0 = Some ((67 - 21) / 87 - (60 - 21) / 87) /\
  token_at tokens 7 0 = Some (-1) /\
  token_at tokens 8 0 = Some (-1) /\
  exists v : number,
    token_at tokens 5 0 = Some v /\ v == Qmod (60 - 21) 12 / 11.
Proof.
  intros tokens.
  destruct (pitch_offset_features 60 [64; -1; -1; -1; -1]
              [Fin 1; PosInf; PosInf; PosInf; PosInf]
              [ mkLookahead 67 300 None; mkLookahead (-1) 600 None ])
    as (Hprev & Hlook & Hpad & Hcur).
  split; [apply (Hprev 0%nat 64); [lia | reflexivity | discriminate]|].
  split; [apply (Hprev 1%nat (-1)); [lia | reflexivity | reflexivity]|].
  split; [apply (Hlook 0%nat (mkLookahead 67 300 None));
          [lia | reflexivity | discriminate]|].
  split; [apply (Hlook 1%nat (mkLookahead (-1) 600 None));
          [lia | reflexivity | reflexivity]|].
  split; [apply (Hpad 2%nat); [lia | reflexivity]|].
  apply Hcur. discriminate.
Defined.

(** ** Malformed pitches *)

Lemma isBlackKey_nonneg (midi : number) :
  0 <= midi -> isBlackKey midi = 0 \/ isBlackKey midi = 1.
Proof.
  intros H. unfold isBlackKey. apply Qltb_ge in H. rewrite H.
  destruct (set_has _ _); auto.
Qed.

(** C4, as the code has it.  Whatever the pitches, in range or not, the
    encoder returns 130 values (26 rows of 5).  The pitch sentinels go to
    negative pitches only: a row of a negative pitch has offset feature -1
    and black-key feature -1, while a pitch that is not negative, even one
    outside 21-108, has the ordinary offset feature and a black-key feature
    of 0 or 1. *)
Theorem encoder_total_sentinel_for_negative (currentMidi : number)
    (lastMidi : list number) (lastTime : list ExtNum)
    (lookaheadNotes : list LookaheadNote) :
  let tokens := buildTokens currentMidi lastMidi lastTime lookaheadNotes in
  length tokens = 130%nat /\
  (forall (j : nat) (ln : LookaheadNote),
      (j < 20)%nat -> lookaheadNotes !! j = Some ln ->
      (ln_midi ln < 0 ->
       token_at tokens (6 + j) 0 = Some (-1) /\
       token_at tokens (6 + j) 2 = Some (-1)) /\
      (0 <= ln_midi ln ->
       token_at tokens (6 + j) 0 =
         Some ((ln_midi ln - 21) / 87 - (currentMidi - 21) / 87) /\
       (token_at tokens (6 + j) 2 = Some 0 \/
        token_at tokens (6 + j) 2 = Some 1))) /\
  (forall (f : nat) (midi : number),
      (f < 5)%nat -> lastMidi !! f = Some midi ->
      (midi < 0 ->
       token_at tokens f 0 = Some (-1) /\ token_at tokens f 2 = Some (-1)) /\
      (0 <= midi ->
       token_at tokens f 0 =
         Some ((midi - 21) / 87 - (currentMidi - 21) / 87) /\
       (token_at tokens f 2 = Some 0 \/ token_at tokens f 2 = Some 1))) /\
  (currentMidi < 0 ->
   token_at tokens 5 0 = Some (-1) /\ token_at tokens 5 2 = Some (-1)) /\
  (0 <= currentMidi ->
   token_at tokens 5 2 = Some 0 \/ token_at tokens 5 2 = Some 1).
Proof.
  intros tokens. split; [apply buildTokens_length|].
  split; [|split; [|split]].
  - intros j ln Hj Hln. unfold tokens.
    rewrite !token_at_lookahead by lia. rewrite Hln. simpl. split.
    + intros Hneg. apply Qgeb_lt in Hneg. now rewrite Hneg.
    + intros Hpos. pose proof (isBlackKey_nonneg _ Hpos) as Hb.
      apply Qgeb_ge in Hpos. rewrite Hpos.
      split; [reflexivity|]. destruct Hb as [-> | ->]; auto.
  - intros f midi Hf Hmidi. unfold tokens.
    rewrite !token_at_previous by lia.
    rewrite (nth_lookup_Some _ _ _ _ Hmidi). simpl. split.
    + intros Hneg. apply Qgeb_lt in Hneg. now rewrite Hneg.
    + intros Hpos. pose proof (isBlackKey_nonneg _ Hpos) as Hb.
      apply Qgeb_ge in Hpos. rewrite Hpos.
      split; [reflexivity|]. destruct Hb as [-> | ->]; auto.
  - intros Hneg. unfold tokens. rewrite !token_at_current by lia. simpl.
    unfold midiToPitchClass, isBlackKey. apply Qltb_lt in Hneg.
    now rewrite Hneg.
  - intros Hpos. unfold tokens. rewrite !token_at_current by lia. simpl.
    destruct (isBlackKey_nonneg _ Hpos) as [-> | ->]; auto.
Qed.

Lemma encoder_total_sentinel_for_negative_witness :
  let tokens :=
    buildTokens 120 [10; -1; -1; -1; -1]
      [Fin 1; PosInf; PosInf; PosInf; PosInf]
      [ mkLookahead 120 300 None; mkLookahead (-1) 600 None ] in
  length tokens = 130%nat /\
  (token_at tokens 7 0 = Some (-1) /\ token_at tokens 7 2 = Some (-1)) /\
  token_at tokens 6 0 = Some ((120 - 21) / 87 - (120 - 21) / 87) /\
  token_at tokens 0 0 = Some ((10 - 21) / 87 - (120 - 21) / 87) /\
  (token_at tokens 5 2 = Some 0 \/ token_at tokens 5 2 = Some 1).
Proof.
  intros tokens.
  destruct (encoder_total_sentinel_for_negative 120 [10; -1; -1; -1; -1]
              [Fin 1; PosInf; PosInf; PosInf; PosInf]
              [ mkLookahead 120 300 None; mkLookahead (-1) 600 None ])
    as (Hlen & Hlook & Hprev & _ & Hcur).
  split; [exact Hlen|].
  split; [apply (Hlook 1%nat (mkLookahead (-1) 600 None));
          [lia | reflexivity | reflexivity]|].
  split; [apply (Hlook 0%nat (mkLookahead 120 300 None));
          [lia | reflexivity | discriminate]|].
  split; [apply (Hprev 0%nat 10); [lia | reflexivity | discriminate]|].
  apply Hcur. discriminate.
Defined.

(** C4 as stated fails: pitch 120 is outside 21-108, and the lookahead row
    of a note with that pitch (row 6 here) carries neither sentinel: its
    offset feature is 60/87 and its black-key feature is 0.  The same holds
    for the pitch 10 as the pitch of the current note (row 5). *)
Lemma malformed_pitch_without_sentinels :
  ~ (21 <= 120 /\ 120 <= 108) /\
  ~ pitch_sentinels_at
      (buildTokens 60 (fingerLastMidi initialFingerState)
         (fingerLastTime initialFingerState) [mkLookahead 120 300 None]) 6 /\
  ~ (21 <= 10 /\ 10 <= 108) /\
  ~ pitch_sentinels_at
      (buildTokens 10 (fingerLastMidi initialFingerState)
         (fingerLastTime initialFingerState) []) 5.
Proof.
  split; [intros [_ H]; now apply H|].
  split.
  - intros (o & b & Ho & Hb & Ho1 & Hb1).
    vm_compute in Hb. injection Hb as <-. discriminate Hb1.
  - split; [intros [H _]; now apply H|].
    intros (o & b & Ho & Hb & Ho1 & Hb1).
    vm_compute in Hb. injection Hb as <-. discriminate Hb1.
Qed.

(** ** The maximum of the scores *)

(** The loop invariant of [argmax]: [maxIdx] is the first maximum of the
    part [seen] that the scan has passed. *)
Lemma argmax_from_first_maximum (rest seen : list number) (maxIdx : nat)
    (maxVal : number) :
  seen !! maxIdx = Some maxVal ->
  is_first_maximum seen maxIdx ->
  is_first_maximum (seen ++ rest)
    (argmax_from rest (length seen) maxIdx maxVal).
Proof.
  revert seen maxIdx maxVal.
  induction rest as [|x rest IH]; intros seen maxIdx maxVal Hval Hmax; simpl.
  - now rewrite app_nil_r.
  - replace (seen ++ x :: rest) with ((seen ++ [x]) ++ rest)
      by now rewrite <- app_assoc.
    replace (S (length seen)) with (length (seen ++ [x]))
      by (rewrite length_app; simpl; lia).
    destruct Hmax as (v & Hv & Hall & Hbefore).
    assert (v = maxVal) as -> by congruence.
    destruct (Qltb maxVal x) eqn:E.
    + apply Qltb_lt in E. apply IH.
      * rewrite lookup_app_r by lia. now rewrite Nat.sub_diag.
      * exists x. split; [|split].
        -- rewrite lookup_app_r by lia. now rewrite Nat.sub_diag.
        -- intros j y Hj. apply lookup_app_Some in Hj as [Hj | [_ Hj]].
           ++ specialize (Hall j y Hj). lra.
           ++ apply list_lookup_singleton_Some in Hj as [_ <-]. lra.
        -- intros j y Hlt Hj. rewrite lookup_app_l in Hj by exact Hlt.
           specialize (Hall j y Hj). lra.
    + apply Qltb_ge in E. apply IH.
      * rewrite lookup_app_l by (apply lookup_lt_Some in Hval; exact Hval).
        exact Hval.
      * exists maxVal. split; [|split].
        -- rewrite lookup_app_l by (apply lookup_lt_Some in Hval; exact Hval).
           exact Hval.
        -- intros j y Hj. apply lookup_app_Some in Hj as [Hj | [_ Hj]].
           ++ now apply (Hall j).
           ++ now apply list_lookup_singleton_Some in Hj as [_ <-].
        -- intros j y Hlt Hj.
           rewrite lookup_app_l in Hj
             by (apply lookup_lt_Some in Hval; lia).
           now apply (Hbefore j).
Qed.

Lemma argmax_first_maximum (arr : list number) :
  arr <> [] -> is_first_maximum arr (argmax arr).
Proof.
  destruct arr as [|x rest]; [congruence|]. intros _. unfold argmax.
  apply (argmax_from_first_maximum rest [x] 0 x); [reflexivity|].
  exists x. split; [reflexivity|]. split.
  - intros [|j] y Hj; simpl in Hj; [injection Hj as <-; lra | discriminate].
  - intros j y Hlt. lia.
Qed.

(** C7. For a note without a valid fixed finger, the finger of the record
    that the iteration returns is 1 plus [argmax] of the scores that the
    oracle returned for this note, and on scores that are not empty (the
    oracle returns 5) that index holds the largest score and no earlier
    index holds a score as large: among equal largest scores the lowest
    index wins. *)
Theorem predicted_finger_is_first_maximum {W : Type}
    (model : InferenceSession W) (n : Note) (rest : list Note)
    (st : FingerState) (w : W) (r : Note) (st' : FingerState) (w' : W) :
  noteStep model n rest st w = Some ((r, st'), w') ->
  is_fixed_finger (finger n) = false ->
  exists logits : list number,
    model (buildTokens (note n) (fingerLastMidi st) (fingerLastTime st)
             (map (lookaheadEntry (time n)) (take 20 rest))) w
      = Some (logits, w') /\
    finger r = Some (inject_Z (Z.of_nat (argmax logits)) + 1) /\
    (logits <> [] -> is_first_maximum logits (argmax logits)).
Proof.
  intros Hstep Hfree.
  apply noteStep_Some in Hstep as (logits & Hm & -> & _).
  exists logits. split; [exact Hm|]. split.
  - now rewrite resolveFinger_predicted.
  - apply argmax_first_maximum.
Qed.

Lemma predicted_finger_is_first_maximum_witness :
  exists logits : list number,
    tiedSession
      (buildTokens (note freeNote) (fingerLastMidi initialFingerState)
         (fingerLastTime initialFingerState)
         (map (lookaheadEntry (time freeNote)) (take 20 []))) tt
      = Some (logits, tt) /\
    finger (with_finger freeNote 2) =
      Some (inject_Z (Z.of_nat (argmax logits)) + 1) /\
    (logits <> [] -> is_first_maximum logits (argmax logits)).
Proof.
  apply (predicted_finger_is_first_maximum tiedSession freeNote []
           initialFingerState tt (with_finger freeNote 2)
           (nextFingerState initialFingerState freeNote 2 []) tt).
  - reflexivity.
  - reflexivity.
Defined.

(** ** Finger state *)

Lemma js_index_of_nat (k : number) (i : nat) :
  k == inject_Z (Z.of_nat i) -> js_index k = Some i.
Proof.
  intros Hk. unfold js_index.
  rewrite (Qfloor_comp _ _ Hk), Qfloor_Z.
  apply Qeq_bool_iff in Hk. rewrite Hk.
  replace (0 <=? Z.of_nat i)%Z with true by (symmetry; apply Z.leb_le; lia).
  simpl. now rewrite Nat2Z.id.
Qed.

Lemma js_index_Some (k : number) (i : nat) :
  js_index k = Some i -> k == inject_Z (Z.of_nat i).
Proof.
  unfold js_index.
  destruct (Qeq_bool k (inject_Z (Qfloor k))) eqn:E; [|discriminate].
  destruct (0 <=? Qfloor k)%Z eqn:E0; [|discriminate].
  simpl. intros [= <-]. apply Qeq_bool_iff in E. apply Z.leb_le in E0.
  now rewrite Z2Nat.id.
Qed.

Lemma arr_set_length {A : Type} (arr : list A) (k : number) (v : A) :
  length (arr_set arr k v) = length arr.
Proof.
  unfold arr_set. destruct (js_index k); [apply length_insert | reflexivity].
Qed.

Lemma arr_set_lookup_eq {A : Type} (arr : list A) (k : number) (v : A)
    (i : nat) :
  (i < length arr)%nat -> k == inject_Z (Z.of_nat i) ->
  arr_set arr k v !! i = Some v.
Proof.
  intros Hi Hk. unfold arr_set. rewrite (js_index_of_nat k i Hk).
  now apply list_lookup_insert_eq.
Qed.

Lemma arr_set_lookup_ne {A : Type} (arr : list A) (k : number) (v : A)
    (i : nat) :
  ~ k == inject_Z (Z.of_nat i) -> arr_set arr k v !! i = arr !! i.
Proof.
  intros Hk. unfold arr_set. destruct (js_index k) as [j|] eqn:E;
    [|reflexivity].
  apply list_lookup_insert_ne. intros ->. apply Hk. now apply js_index_Some.
Qed.

Lemma ageFingers_lookup (st : FingerState) (dt : number) (i : nat) :
  length (fingerLastTime st) = 5%nat ->
  fingerLastTime (ageFingers st dt) !! i =
    ageTime dt <$> fingerLastTime st !! i.
Proof.
  destruct st as [lm lt]. simpl. intros Hlen.
  destruct lt as [|t0 [|t1 [|t2 [|t3 [|t4 [|t5 lt]]]]]]; try discriminate.
  do 5 (destruct i as [|i]; [reflexivity|]). reflexivity.
Qed.

Lemma updateFinger_lengths (st : FingerState) k midi dur :
  length (fingerLastMidi (updateFinger st k midi dur))
    = length (fingerLastMidi st) /\
  length (fingerLastTime (updateFinger st k midi dur))
    = length (fingerLastTime st).
Proof. simpl. now rewrite !arr_set_length. Qed.

Lemma ageFingers_lengths (st : FingerState) (dt : number) :
  length (fingerLastTime st) = 5%nat ->
  length (fingerLastMidi (ageFingers st dt)) = length (fingerLastMidi st) /\
  length (fingerLastTime (ageFingers st dt)) = 5%nat.
Proof.
  destruct st as [lm lt]. simpl. intros Hlen. split; [reflexivity|].
  destruct lt as [|t0 [|t1 [|t2 [|t3 [|t4 [|t5 lt]]]]]]; try discriminate.
  reflexivity.
Qed.

(** The two arrays keep their five elements. *)
Lemma nextFingerState_lengths st n fg rest :
  length (fingerLastMidi st) = 5%nat -> length (fingerLastTime st) = 5%nat ->
  length (fingerLastMidi (nextFingerState st n fg rest)) = 5%nat /\
  length (fingerLastTime (nextFingerState st n fg rest)) = 5%nat.
Proof.
  intros Hm Ht. unfold nextFingerState.
  destruct (updateFinger_lengths st (fg - 1) (note n) (duration n))
    as [Hm1 Ht1].
  destruct rest as [|next rest]; [split; congruence|].
  destruct (ageFingers_lengths
              (updateFinger st (fg - 1) (note n) (duration n))
              ((time next - time n) / 1000)) as [Hm2 Ht2]; [congruence|].
  split; congruence.
Qed.

(** C6. After a note is processed, with [fg] the finger of the returned
    record: first the element of the chosen finger (index [fg - 1]) is set
    to the note's pitch in [fingerLastMidi] and to minus the duration in
    seconds in [fingerLastTime], the duration being 100 ms when the note has
    none, and no other element changes ([st1] below); then, when a next
    note exists, the gap to it in seconds is added to every element of
    [fingerLastTime] that is not [Infinity], and when the note is the last
    of its hand the state stays [st1]. *)
Theorem finger_state_after_note {W : Type} (model : InferenceSession W)
    (n : Note) (rest : list Note) (st : FingerState) (w : W)
    (r : Note) (st' : FingerState) (w' : W) :
  length (fingerLastMidi st) = 5%nat ->
  length (fingerLastTime st) = 5%nat ->
  noteStep model n rest st w = Some ((r, st'), w') ->
  exists (fg : number) (st1 : FingerState),
    finger r = Some fg /\
    (forall i : nat,
        (i < 5)%nat ->
        (fg - 1 == inject_Z (Z.of_nat i) ->
         fingerLastMidi st1 !! i = Some (note n) /\
         fingerLastTime st1 !! i =
           Some (Fin (- (match duration n with
                         | Some d => d
                         | None => 100
                         end / 1000)))) /\
        (~ fg - 1 == inject_Z (Z.of_nat i) ->
         fingerLastMidi st1 !! i = fingerLastMidi st !! i /\
         fingerLastTime st1 !! i = fingerLastTime st !! i)) /\
    match rest with
    | [] => st' = st1
    | next :: _ =>
        fingerLastMidi st' = fingerLastMidi st1 /\
        forall i : nat,
          (i < 5)%nat ->
          fingerLastTime st' !! i =
            match fingerLastTime st1 !! i with
            | Some (Fin t) => Some (Fin (t + (time next - time n) / 1000))
            | Some PosInf => Some PosInf
            | None => None
            end
    end.
Proof.
  intros Hm Ht Hstep.
  apply noteStep_Some in Hstep as (logits & _ & -> & ->).
  pose proof (resolveFinger_finger n (argmax logits)) as Hfg.
  destruct (resolveFinger n (argmax logits)) as [r fg]. simpl in *.
  exists fg, (updateFinger st (fg - 1) (note n) (duration n)).
  split; [exact Hfg|]. split.
  - intros i Hi. split.
    + intros Hk. simpl. split.
      * apply arr_set_lookup_eq; [lia | exact Hk].
      * rewrite arr_set_lookup_eq by (first [lia | exact Hk]).
        now destruct (duration n).
    + intros Hk. simpl. now rewrite !arr_set_lookup_ne.
  - unfold nextFingerState. destruct rest as [|next rest]; [reflexivity|].
    split; [reflexivity|]. intros i Hi.
    rewrite ageFingers_lookup
      by (rewrite (proj2 (updateFinger_lengths _ _ _ _)); exact Ht).
    destruct (fingerLastTime _ !! i) as [[|t]|]; reflexivity.
Qed.

Lemma finger_state_after_note_witness :
  exists (fg : number) (st1 : FingerState),
    finger openingNote = Some fg /\
    (forall i : nat,
        (i < 5)%nat ->
        (fg - 1 == inject_Z (Z.of_nat i) ->
         fingerLastMidi st1 !! i = Some (note openingNote) /\
         fingerLastTime st1 !! i =
           Some (Fin (- (match duration openingNote with
                         | Some d => d
                         | None => 100
                         end / 1000)))) /\
        (~ fg - 1 == inject_Z (Z.of_nat i) ->
         fingerLastMidi st1 !! i = fingerLastMidi initialFingerState !! i /\
         fingerLastTime st1 !! i = fingerLastTime initialFingerState !! i)) /\
    fingerLastMidi
      (nextFingerState initialFingerState openingNote 3 [laterNote])
      = fingerLastMidi st1 /\
    forall i : nat,
      (i < 5)%nat ->
      fingerLastTime
        (nextFingerState initialFingerState openingNote 3 [laterNote]) !! i =
        match fingerLastTime st1 !! i with
        | Some (Fin t) =>
            Some (Fin (t + (time laterNote - time openingNote) / 1000))
        | Some PosInf => Some PosInf
        | None => None
        end.
Proof.
  apply (finger_state_after_note tiedSession openingNote [laterNote]
           initialFingerState tt openingNote
           (nextFingerState initialFingerState openingNote 3 [laterNote]) tt).
  - reflexivity.
  - reflexivity.
  - reflexivity.
Defined.

(** ** Skipping the oracle for fixed notes *)

Section SkipFixedFacts.
Context {W : Type} (model : InferenceSession W).
Context (scores : list number -> list number).
Hypothesis model_scores : scores_by model scores.

Lemma noteStep_scores n rest st w :
  exists w',
    noteStep model n rest st w =
      Some ((fst (resolveFinger n (argmax (scores
               (buildTokens (note n) (fingerLastMidi st) (fingerLastTime st)
                  (map (lookaheadEntry (time n)) (take 20 rest)))))),
             nextFingerState st n
               (snd (resolveFinger n (argmax (scores
                  (buildTokens (note n) (fingerLastMidi st)
                     (fingerLastTime st)
                     (map (lookaheadEntry (time n)) (take 20 rest)))))))
               rest), w').
Proof.
  unfold noteStep, bind.
  destruct (model_scores
              (buildTokens (note n) (fingerLastMidi st) (fingerLastTime st)
                 (map (lookaheadEntry (time n)) (take 20 rest))) w)
    as [w' ->].
  exists w'. now destruct (resolveFinger n _).
Qed.

Lemma noteStepSkipFixed_scores n rest st w :
  exists w',
    noteStepSkipFixed model n rest st w =
      Some ((fst (resolveFinger n (argmax (scores
               (buildTokens (note n) (fingerLastMidi st) (fingerLastTime st)
                  (map (lookaheadEntry (time n)) (take 20 rest)))))),
             nextFingerState st n
               (snd (resolveFinger n (argmax (scores
                  (buildTokens (note n) (fingerLastMidi st)
                     (fingerLastTime st)
                     (map (lookaheadEntry (time n)) (take 20 rest)))))))
               rest), w').
Proof.
  unfold noteStepSkipFixed.
  destruct (finger n) as [existing|] eqn:Ef; [|apply noteStep_scores].
  destruct (Qgeb existing 1 && Qle_bool existing 5) eqn:E;
    [|apply noteStep_scores].
  exists w.
  assert (Hfix : forall pred, resolveFinger n pred = (n, existing)).
  { intros pred. unfold resolveFinger. now rewrite Ef, E. }
  now rewrite Hfix.
Qed.

Lemma handLoopSkipFixed_cons n rest st w :
  handLoopSkipFixed model (n :: rest) st w =
    match noteStepSkipFixed model n rest st w with
    | Some ((result, st'), w1) =>
        match handLoopSkipFixed model rest st' w1 with
        | Some (results, w2) => Some (result :: results, w2)
        | None => None
        end
    | None => None
    end.
Proof.
  simpl. unfold bind.
  destruct (noteStepSkipFixed model n rest st w) as [[[result st'] w1]|];
    [|reflexivity].
  now destruct (handLoopSkipFixed model rest st' w1) as [[results w2]|].
Qed.

Lemma handLoop_skip_same sorted st w1 w2 :
  exists out w1' w2',
    handLoop model sorted st w1 = Some (out, w1') /\
    handLoopSkipFixed model sorted st w2 = Some (out, w2').
Proof.
  revert st w1 w2. induction sorted as [|n rest IH]; intros st w1 w2.
  - exists [], w1, w2. split; reflexivity.
  - rewrite handLoop_cons, handLoopSkipFixed_cons.
    destruct (noteStep_scores n rest st w1) as [w1' ->].
    destruct (noteStepSkipFixed_scores n rest st w2) as [w2' ->].
    destruct (IH (nextFingerState st n
                    (snd (resolveFinger n (argmax (scores
                       (buildTokens (note n) (fingerLastMidi st)
                          (fingerLastTime st)
                          (map (lookaheadEntry (time n)) (take 20 rest)))))))
                    rest) w1' w2')
      as (out & w1'' & w2'' & -> & ->).
    eexists _, w1'', w2''. split; reflexivity.
Qed.

End SkipFixedFacts.

(** C3. Under the oracle contract (the oracle answers every request and its
    scores depend on the token matrix only), the hand predictor that skips
    the oracle call for notes with a fixed finger in [1, 5] returns, and
    returns the same list of notes as [predictHandFingerings], which calls
    the oracle once for every note and does not use the answer for fixed
    notes.  The oracle states in which the two are started, and in which
    they end, need not agree. *)
Theorem skip_fixed_same_output {W : Type} (model : InferenceSession W)
    (scores : list number -> list number) (notes : list Note)
    (isLeft : bool) (w1 w2 : W) :
  scores_by model scores ->
  exists (out : list Note) (w1' w2' : W),
    predictHandFingerings model notes isLeft w1 = Some (out, w1') /\
    predictHandFingeringsSkipFixed model notes isLeft w2 = Some (out, w2').
Proof.
  intros Hscores.
  unfold predictHandFingerings, predictHandFingeringsSkipFixed.
  destruct (length _ =? 0)%nat.
  - exists [], w1, w2. split; reflexivity.
  - now apply (handLoop_skip_same model scores).
Qed.

Lemma createMockSession_scores (fingerIndex : nat) :
  scores_by (createMockSession fingerIndex)
    (fun _ => <[fingerIndex := 1]> [0; 0; 0; 0; 0]).
Proof. intros tokenData calls. eexists. reflexivity. Qed.

Lemma skip_fixed_same_output_witness :
  exists (out : list Note) (w1' w2' : list (list number)),
    predictHandFingerings (createMockSession 0) fixedNotes false []
      = Some (out, w1') /\
    predictHandFingeringsSkipFixed (createMockSession 0) fixedNotes false []
      = Some (out, w2').
Proof.
  apply (skip_fixed_same_output (createMockSession 0)
           (fun _ => <[0%nat := 1]> [0; 0; 0; 0; 0]) fixedNotes false [] []).
  intros tokenData calls. eexists. reflexivity.
Defined.

(** ** Independence of the hands *)

Section SeparateState.
Context {SL SR : Type}.

Lemma handLoop_on_left (model : InferenceSession SL) sorted st (w : SL * SR) :
  handLoop (on_left model) sorted st w =
    match handLoop model sorted st (fst w) with
    | Some (out, sl) => Some (out, (sl, snd w))
    | None => None
    end.
Proof.
  revert st w. induction sorted as [|n rest IH]; intros st [sl sr].
  - reflexivity.
  - rewrite !handLoop_cons. unfold noteStep, bind, on_left at 1. simpl.
    destruct (model _ sl) as [[logits sl1]|]; [|reflexivity].
    destruct (resolveFinger n (argmax logits)) as [result fg]. simpl.
    rewrite IH. simpl.
    destruct (handLoop model rest _ sl1) as [[results sl2]|]; reflexivity.
Qed.

Lemma handLoop_on_right (model : InferenceSession SR) sorted st (w : SL * SR) :
  handLoop (on_right model) sorted st w =
    match handLoop model sorted st (snd w) with
    | Some (out, sr) => Some (out, (fst w, sr))
    | None => None
    end.
Proof.
  revert st w. induction sorted as [|n rest IH]; intros st [sl sr].
  - reflexivity.
  - rewrite !handLoop_cons. unfold noteStep, bind, on_right at 1. simpl.
    destruct (model _ sr) as [[logits sr1]|]; [|reflexivity].
    destruct (resolveFinger n (argmax logits)) as [result fg]. simpl.
    rewrite IH. simpl.
    destruct (handLoop model rest _ sr1) as [[results sr2]|]; reflexivity.
Qed.

Lemma predictHandFingerings_on_left (model : InferenceSession SL) notes isLeft
    (w : SL * SR) :
  predictHandFingerings (on_left model) notes isLeft w =
    match predictHandFingerings model notes isLeft (fst w) with
    | Some (out, sl) => Some (out, (sl, snd w))
    | None => None
    end.
Proof.
  unfold predictHandFingerings. destruct (length _ =? 0)%nat.
  - now destruct w.
  - apply handLoop_on_left.
Qed.

Lemma predictHandFingerings_on_right (model : InferenceSession SR) notes isLeft
    (w : SL * SR) :
  predictHandFingerings (on_right model) notes isLeft w =
    match predictHandFingerings model notes isLeft (snd w) with
    | Some (out, sr) => Some (out, (fst w, sr))
    | None => None
    end.
Proof.
  unfold predictHandFingerings. destruct (length _ =? 0)%nat.
  - now destruct w.
  - apply handLoop_on_right.
Qed.

End SeparateState.

(** C8. Hand independence: for every input and every pair of oracles, each
    with a state of its own, running the left hand before the right
    ([predictFingerings]) and the right hand before the left (the order of
    [runPrediction]) give the same outcome: the same merged and sorted list
    and the same final oracle states, or a failure in both. *)
Theorem hand_order_irrelevant {SL SR : Type} (l : InferenceSession SL)
    (r : InferenceSession SR) (notes : list Note) (w : SL * SR) :
  predictFingerings notes (separateModels l r) w =
  predictFingeringsRightFirst notes (separateModels l r) w.
Proof.
  unfold predictFingerings, predictFingeringsRightFirst, bind. simpl.
  rewrite predictHandFingerings_on_left, predictHandFingerings_on_right.
  destruct w as [sl sr]. simpl.
  destruct (predictHandFingerings l notes true sl) as [[lres sl']|] eqn:El;
    destruct (predictHandFingerings r notes false sr) as [[rres sr']|] eqn:Er;
    rewrite ?predictHandFingerings_on_left, ?predictHandFingerings_on_right;
    simpl; rewrite ?El, ?Er; reflexivity.
Qed.

(** ** Note objects *)

(** Sorting locations by the objects they refer to is sorting the
    objects. *)
Lemma js_sort_map {A B : Type} (cmp : B -> B -> number) (f : A -> B)
    (l : list A) :
  js_sort cmp (map f l) = map f (js_sort (fun a b => cmp (f a) (f b)) l).
Proof.
  induction l as [|x l IH]; simpl; [reflexivity|]. rewrite IH.
  generalize (js_sort (fun a b => cmp (f a) (f b)) l). intros l'.
  induction l' as [|y l' IH']; simpl; [reflexivity|].
  destruct (Qle_bool (cmp (f x) (f y)) 0); simpl; [reflexivity|].
  now rewrite IH'.
Qed.

Lemma js_sort_ext_in {A : Type} (cmp cmp' : A -> A -> number) (l : list A) :
  (forall a b, In a l -> In b l -> cmp a b = cmp' a b) ->
  js_sort cmp l = js_sort cmp' l.
Proof.
  induction l as [|x l IH]; intros H; simpl; [reflexivity|].
  rewrite <- IH by (intros; apply H; now right).
  assert (Hin : forall y, In y (js_sort cmp l) -> In y l).
  { intros y Hy. eapply Permutation_in; [|exact Hy].
    symmetry. apply js_sort_perm. }
  revert Hin. generalize (js_sort cmp l). intros l' Hin.
  induction l' as [|y l' IH']; simpl; [reflexivity|].
  rewrite (H x y) by (first [now left | right; apply Hin; now left]).
  destruct (Qle_bool (cmp' x y) 0); [reflexivity|].
  rewrite IH'; [reflexivity|]. intros z Hz. apply Hin. now right.
Qed.

(** One result per note. *)
Lemma handLoop_length {W : Type} (model : InferenceSession W) sorted st w
    out w' :
  handLoop model sorted st w = Some (out, w') -> length out = length sorted.
Proof.
  intros H. symmetry.
  eapply (Forall2_length (R := fun _ _ => True)).
  eapply handLoop_Forall2; [|exact H]. auto.
Qed.

(** A run that starts in the store [s0 ++ ext], where [s0] holds the
    objects of the caller and [ext] the records allocated so far, on
    locations of [s0]: it allocates one record per note behind [ext], it
    changes nothing of [s0 ++ ext], and the records are the ones that the
    predictor over values computes from the objects of [s0]. *)
Section StoreFacts.
Context (s0 : Store).

Let valid : loc -> Prop := valid_loc s0.

Lemma deref_app (ext : Store) (l : loc) :
  valid l -> Obj.deref (s0 ++ ext) l = Obj.deref s0 l.
Proof. intros Hl. now apply lookup_total_app_l. Qed.

Lemma map_deref_app (ext : Store) (ls : list loc) :
  Forall valid ls -> map (Obj.deref (s0 ++ ext)) ls = map (Obj.deref s0) ls.
Proof.
  intros H. apply map_ext_in. intros l Hl. apply deref_app.
  rewrite Forall_forall in H. now apply H.
Qed.

Context {W : Type} (model : InferenceSession W).

Lemma Obj_noteStep_spec (l : loc) (rest : list loc) (st : FingerState)
    (ext : Store) (w : W) :
  valid l -> Forall valid rest ->
  Obj.noteStep model l rest st (s0 ++ ext, w) =
    match noteStep model (Obj.deref s0 l) (map (Obj.deref s0) rest) st w with
    | Some ((r, st'), w') =>
        Some ((length (s0 ++ ext), st'), ((s0 ++ ext) ++ [r], w'))
    | None => None
    end.
Proof.
  intros Hl Hrest. unfold Obj.noteStep, noteStep, bind.
  rewrite (deref_app ext l Hl).
  rewrite firstn_map, map_map.
  assert (Hla :
    map (fun k => lookaheadEntry (time (Obj.deref s0 l))
                    (Obj.deref (s0 ++ ext) k)) (take 20 rest) =
    map (fun x => lookaheadEntry (time (Obj.deref s0 l)) (Obj.deref s0 x))
      (take 20 rest)).
  { apply map_ext_in. intros k Hk. rewrite deref_app; [reflexivity|].
    rewrite Forall_forall in Hrest. apply Hrest.
    apply list_elem_of_In. apply list_elem_of_In in Hk.
    now apply (subseteq_take 20 rest). }
  rewrite Hla. clear Hla.
  destruct (model _ w) as [[logits w']|]; [|reflexivity].
  unfold Obj.alloc.
  set (n := Obj.deref s0 l).
  assert (Hn1 : Obj.deref ((s0 ++ ext) ++ [n]) l = n).
  { rewrite <- app_assoc. now apply deref_app. }
  rewrite Hn1.
  assert (Hset : forall fg,
    Obj.setFinger ((s0 ++ ext) ++ [n]) (length (s0 ++ ext)) fg =
      (s0 ++ ext) ++ [with_finger n fg]).
  { intros fg. unfold Obj.setFinger.
    rewrite insert_app_r_alt by lia. rewrite Nat.sub_diag. simpl.
    unfold Obj.deref. now rewrite list_lookup_total_middle. }
  assert (Hnext : forall (r : Note) fg,
    nextFingerState st (Obj.deref ((s0 ++ ext) ++ [r]) l) fg
      (map (Obj.deref ((s0 ++ ext) ++ [r])) rest) =
    nextFingerState st n fg (map (Obj.deref s0) rest)).
  { intros r fg. rewrite <- app_assoc.
    now rewrite deref_app, map_deref_app. }
  unfold resolveFinger.
  destruct (finger n) as [existing|].
  - destruct (Qgeb existing 1 && Qle_bool existing 5).
    + simpl. now rewrite Hnext.
    + simpl. now rewrite Hset, Hnext.
  - simpl. now rewrite Hset, Hnext.
Qed.

Lemma Obj_handLoop_spec (sorted : list loc) (st : FingerState) (ext : Store)
    (w : W) :
  Forall valid sorted ->
  Obj.handLoop model sorted st (s0 ++ ext, w) =
    match handLoop model (map (Obj.deref s0) sorted) st w with
    | Some (results, w') =>
        Some (seq (length (s0 ++ ext)) (length sorted),
              ((s0 ++ ext) ++ results, w'))
    | None => None
    end.
Proof.
  revert st ext w. induction sorted as [|l rest IH]; intros st ext w Hvalid.
  - simpl. unfold ret. now rewrite app_nil_r.
  - pose proof (Forall_inv Hvalid) as Hl.
    pose proof (Forall_inv_tail Hvalid) as Hrest.
    simpl map. rewrite handLoop_cons. simpl Obj.handLoop. unfold bind at 1.
    rewrite Obj_noteStep_spec by assumption.
    destruct (noteStep model _ _ st w) as [[[r st'] w1]|]; [|reflexivity].
    unfold bind. rewrite <- app_assoc. rewrite IH by assumption.
    destruct (handLoop model _ st' w1) as [[results w2]|]; [|reflexivity].
    unfold ret. simpl. rewrite !length_app. simpl.
    rewrite <- !app_assoc. simpl.
    now replace (length s0 + (length ext + 1))%nat
      with (S (length s0 + length ext)) by lia.
Qed.

Lemma Obj_predictHandFingerings_spec (notes : list loc) (isLeft : bool)
    (ext : Store) (w : W) :
  Forall valid notes ->
  Obj.predictHandFingerings model notes isLeft (s0 ++ ext, w) =
    match predictHandFingerings model (map (Obj.deref s0) notes) isLeft w with
    | Some (results, w') =>
        Some (seq (length (s0 ++ ext)) (length results),
              ((s0 ++ ext) ++ results, w'))
    | None => None
    end.
Proof.
  intros Hvalid. unfold Obj.predictHandFingerings, predictHandFingerings.
  rewrite filter_map_swap, length_map.
  assert (Hf :
    List.filter (fun l => Bool.eqb (left (Obj.deref (s0 ++ ext) l)) isLeft)
      notes =
    List.filter (fun a => Bool.eqb (left (Obj.deref s0 a)) isLeft) notes).
  { apply filter_ext_in. intros l Hin. rewrite deref_app; [reflexivity|].
    rewrite Forall_forall in Hvalid. now apply Hvalid. }
  rewrite Hf. clear Hf.
  set (handNotes := List.filter _ notes).
  assert (Hhand : Forall valid handNotes).
  { rewrite Forall_forall in *. intros l Hin. apply Hvalid.
    unfold handNotes in Hin. now apply filter_In in Hin as [Hin _]. }
  destruct (length handNotes =? 0)%nat.
  - unfold ret. simpl. now rewrite app_nil_r.
  - assert (Hs :
      js_sort (Obj.compareRefs (s0 ++ ext)) handNotes =
      js_sort (fun a b => compareNotes (Obj.deref s0 a) (Obj.deref s0 b))
        handNotes).
    { apply js_sort_ext_in. intros a b Ha Hb. unfold Obj.compareRefs.
      rewrite Forall_forall in Hhand.
      now rewrite !deref_app by (apply Hhand; assumption). }
    rewrite Hs. clear Hs. unfold sortNotes. rewrite js_sort_map.
    set (sorted := js_sort _ handNotes).
    assert (Hsorted : Forall valid sorted).
    { eapply Permutation_Forall; [|exact Hhand]. apply js_sort_perm. }
    rewrite Obj_handLoop_spec by exact Hsorted.
    destruct (handLoop model _ _ w) as [[results w']|] eqn:E; [|reflexivity].
    apply handLoop_length in E. rewrite length_map in E. now rewrite E.
Qed.

End StoreFacts.

Lemma Forall2_map_r_inv {A B C : Type} (Q : A -> B -> Prop) (f : C -> B)
    (ins : list A) (out : list C) :
  Forall2 Q ins (map f out) -> Forall2 (fun n l => Q n (f l)) ins out.
Proof.
  revert ins. induction out as [|l out IH]; intros ins H; simpl in H.
  - inversion H. constructor.
  - inversion H as [|n r ins' out' Hn Hrest]; subst.
    constructor; [exact Hn | now apply IH].
Qed.

Lemma map_deref_appended (s results : Store) :
  map (Obj.deref (s ++ results)) (seq (length s) (length results)) = results.
Proof.
  revert s. induction results as [|r results IH]; intros s; simpl.
  - reflexivity.
  - f_equal.
    + unfold Obj.deref. now apply list_lookup_total_middle.
    + specialize (IH (s ++ [r])). rewrite <- app_assoc in IH. simpl in IH.
      rewrite length_app in IH. simpl in IH.
      now replace (length s + 1)%nat with (S (length s)) in IH by lia.
Qed.

(** From the results as values to the caller's view of the store. *)
Lemma fresh_copies_intro (Q : Note -> Note -> Prop) (s results : Store)
    (ins : list Note) (out : list loc) :
  Permutation out (seq (length s) (length results)) ->
  Forall2 (fun n r => same_fields n r /\ Q n r) ins
    (map (Obj.deref (s ++ results)) out) ->
  (forall n r, Q n r -> is_Some (finger r)) ->
  returns_fresh_copies s (s ++ results) ins out.
Proof.
  intros Hperm Hall HQ.
  assert (Hbounds :
    Forall (fun l => (length s <= l < length (s ++ results))%nat) out).
  { eapply Permutation_Forall; [symmetry; exact Hperm|].
    apply Forall_forall. intros l Hl. apply in_seq in Hl.
    rewrite length_app. lia. }
  split; [|split; [|split]].
  - intros l n Hl. now apply lookup_app_l_Some.
  - exact Hbounds.
  - rewrite Hperm. apply NoDup_seq.
  - apply Forall2_map_r_inv in Hall.
    apply Forall2_same_length_lookup. split.
    + eapply Forall2_length, Hall.
    + intros i n l Hn Hl.
      destruct (Forall2_lookup_lr _ _ _ _ _ _ Hall Hn Hl) as [Hsame Hq].
      exists (Obj.deref (s ++ results) l). split; [|split].
      * apply list_lookup_lookup_total_lt.
        rewrite Forall_forall in Hbounds.
        apply Hbounds. apply list_elem_of_In. eapply list_elem_of_lookup_2, Hl.
      * exact Hsame.
      * eapply HQ, Hq.
Qed.

Lemma resolveFinger_has_finger (n : Note) (pred : nat) :
  is_Some (finger (fst (resolveFinger n pred))).
Proof. rewrite resolveFinger_finger. now eexists. Qed.

(** C9. Neither [predictHandFingerings] nor [predictFingerings] changes a
    note object of the caller.  For a caller's array [notes] of objects of
    the store [s]: the run returns whenever the oracles answer, and when it
    returns, every object of [s] is in the final store as it was; the
    returned locations are distinct objects that did not exist in [s]; the
    record at each has the fields [left], [note], [time], [duration] and
    [velocity] of the input note it comes from, and a finger; and read as
    values, the returned records are what the predictor over note values
    returns. *)
Theorem caller_notes_never_mutated {W : Type} (model : InferenceSession W)
    (m : Models W) (s : Store) (notes : list loc) (w : W) :
  Forall (valid_loc s) notes ->
  (never_fails (left_model m) -> never_fails (right_model m) ->
   is_Some (Obj.predictFingerings notes m (s, w))) /\
  (forall isLeft out s' w',
      Obj.predictHandFingerings model notes isLeft (s, w)
        = Some (out, (s', w')) ->
      returns_fresh_copies s s'
        (handOrder (map (Obj.deref s) notes) isLeft) out /\
      predictHandFingerings model (map (Obj.deref s) notes) isLeft w
        = Some (map (Obj.deref s') out, w')) /\
  (forall out s' w',
      Obj.predictFingerings notes m (s, w) = Some (out, (s', w')) ->
      returns_fresh_copies s s' (outputOrder (map (Obj.deref s) notes)) out /\
      predictFingerings (map (Obj.deref s) notes) m w
        = Some (map (Obj.deref s') out, w')).
Proof.
  intros Hvalid. split; [|split].
  - intros Hleft Hright. unfold Obj.predictFingerings, bind.
    pose proof (Obj_predictHandFingerings_spec s (left_model m) notes true []
                  w Hvalid) as Hl.
    rewrite !app_nil_r in Hl. rewrite Hl. clear Hl.
    destruct (predictHandFingerings_returns _ Hleft
                (map (Obj.deref s) notes) true w) as [[lres w1] ->].
    rewrite (Obj_predictHandFingerings_spec s (right_model m) notes false
               lres w1 Hvalid).
    destruct (predictHandFingerings_returns _ Hright
                (map (Obj.deref s) notes) false w1) as [[rres w2] ->].
    now eexists.
  - intros isLeft out s' w' Hrun.
    pose proof (Obj_predictHandFingerings_spec s model notes isLeft [] w Hvalid)
      as Hspec.
    rewrite !app_nil_r in Hspec. rewrite Hspec in Hrun. clear Hspec.
    destruct (predictHandFingerings model _ isLeft w) as [[results w1]|] eqn:E;
      [|discriminate].
    injection Hrun as <- <- <-.
    rewrite map_deref_appended. split; [|reflexivity].
    apply (fresh_copies_intro (fun _ r => is_Some (finger r)));
      [reflexivity | | auto].
    rewrite map_deref_appended.
    eapply (predictHandFingerings_Forall2 model
              (fun n r => same_fields n r /\ is_Some (finger r))); [|exact E].
    intros n pred.
    split; [apply resolveFinger_same_fields | apply resolveFinger_has_finger].
  - intros out s' w' Hrun.
    unfold Obj.predictFingerings, bind in Hrun.
    pose proof (Obj_predictHandFingerings_spec s (left_model m) notes true []
                  w Hvalid) as Hl.
    rewrite !app_nil_r in Hl. rewrite Hl in Hrun. clear Hl.
    destruct (predictHandFingerings (left_model m) _ true w)
      as [[lres w1]|] eqn:El; [|discriminate].
    rewrite (Obj_predictHandFingerings_spec s (right_model m) notes false
               lres w1 Hvalid) in Hrun.
    destruct (predictHandFingerings (right_model m) _ false w1)
      as [[rres w2]|] eqn:Er; [|discriminate].
    injection Hrun as <- <- <-.
    rewrite length_app, <- seq_app, <- length_app, <- app_assoc.
    assert (Hvalues :
      map (Obj.deref (s ++ lres ++ rres))
        (js_sort (Obj.compareRefs (s ++ lres ++ rres))
           (seq (length s) (length (lres ++ rres))))
      = sortNotes (lres ++ rres)).
    { unfold sortNotes.
      change (Obj.compareRefs (s ++ lres ++ rres))
        with (fun a b => compareNotes (Obj.deref (s ++ lres ++ rres) a)
                           (Obj.deref (s ++ lres ++ rres) b)).
      rewrite <- (js_sort_map compareNotes).
      now rewrite map_deref_appended. }
    assert (Hvalue_run :
      predictFingerings (map (Obj.deref s) notes) m w
        = Some (sortNotes (lres ++ rres), w2)).
    { apply predictFingerings_Some. eauto 6. }
    rewrite Hvalues. split; [|exact Hvalue_run].
    apply (fresh_copies_intro (fun _ r => is_Some (finger r)));
      [symmetry; apply js_sort_perm | | auto].
    rewrite Hvalues.
    eapply (predictFingerings_Forall2 (fun _ r => is_Some (finger r)));
      [|exact Hvalue_run].
    intros n pred. apply resolveFinger_has_finger.
Qed.

Lemma caller_notes_never_mutated_witness :
  returns_fresh_copies callerStore
    (callerStore ++ [mkNote true 48 0 (Some 500) None (Some 2)])
    (handOrder (map (Obj.deref callerStore) [0%nat; 1%nat]) true) [2%nat] /\
  returns_fresh_copies callerStore
    (callerStore ++ [ mkNote true 48 0 (Some 500) None (Some 2);
                      mkNote false 60 0 (Some 500) None (Some 2) ])
    (outputOrder (map (Obj.deref callerStore) [0%nat; 1%nat]))
    [2%nat; 3%nat].
Proof.
  assert (Hvalid : Forall (valid_loc callerStore) [0%nat; 1%nat]).
  { repeat constructor; unfold valid_loc; simpl; lia. }
  destruct (caller_notes_never_mutated tiedSession
              (mkModels tiedSession tiedSession) callerStore [0%nat; 1%nat]
              tt Hvalid) as (_ & Hhand & Hboth).
  split.
  - apply (Hhand true [2%nat] _ tt). reflexivity.
  - apply (Hboth [2%nat; 3%nat] _ tt). reflexivity.
Defined.

(** * Further properties of the predictor *)

(** ** Range of the fingers *)

Lemma argmax_lt_length (arr : list number) :
  arr <> [] -> (argmax arr < length arr)%nat.
Proof.
  intros H. destruct (argmax_first_maximum arr H) as (v & Hv & _).
  now apply lookup_lt_Some in Hv.
Qed.

Lemma argmax_at_most_five (arr : list number) :
  (length arr <= 5)%nat -> (argmax arr < 5)%nat.
Proof.
  intros H. destruct arr as [|x rest]; [simpl; lia|].
  pose proof (argmax_lt_length (x :: rest)) as Hlt.
  specialize (Hlt ltac:(discriminate)). lia.
Qed.

Lemma resolveFinger_at_least_one (n : Note) (pred : nat) :
  exists f, finger (fst (resolveFinger n pred)) = Some f /\ 1 <= f.
Proof.
  destruct (resolveFinger_cases n pred) as [(f & Hf & H1 & _ & ->) | [_ ->]];
    simpl.
  - eauto.
  - eexists. split; [reflexivity|].
    assert (0 <= inject_Z (Z.of_nat pred)).
    { change 0 with (inject_Z 0). rewrite <- Zle_Qle. lia. }
    lra.
Qed.

Lemma resolveFinger_in_range (n : Note) (pred : nat) :
  (pred < 5)%nat -> finger_in_range (fst (resolveFinger n pred)).
Proof.
  intros Hpred.
  destruct (resolveFinger_cases n pred) as [(f & Hf & H1 & H5 & ->) | [_ ->]];
    simpl.
  - exists f. auto.
  - eexists. split; [reflexivity|].
    assert (0 <= inject_Z (Z.of_nat pred)).
    { change 0 with (inject_Z 0). rewrite <- Zle_Qle. lia. }
    assert (inject_Z (Z.of_nat pred) <= 4).
    { change 4 with (inject_Z 4). rewrite <- Zle_Qle. lia. }
    split; lra.
Qed.

Section ScoresFacts.
Context {W : Type} (model : InferenceSession W).
Context (Q : nat -> Prop).
Hypothesis model_Q :
  forall tokenData w logits w',
    model tokenData w = Some (logits, w') -> Q (argmax logits).

(** [handLoop_Forall2], knowing something of the index that the scores
    select. *)
Lemma handLoop_Forall2_scores (P : Note -> Note -> Prop) :
  (forall n pred, Q pred -> P n (fst (resolveFinger n pred))) ->
  forall sorted st w out w',
    handLoop model sorted st w = Some (out, w') -> Forall2 P sorted out.
Proof.
  intros HP sorted. induction sorted as [|n rest IH]; intros st w out w' H.
  - apply ret_Some in H as [<- _]. constructor.
  - rewrite handLoop_cons in H.
    destruct (noteStep model n rest st w) as [[[r st1] w1]|] eqn:Estep;
      [|discriminate].
    destruct (handLoop model rest st1 w1) as [[results w2]|] eqn:Erest;
      [|discriminate].
    injection H as <- <-.
    apply noteStep_Some in Estep as (logits & Hm & -> & _).
    constructor; [apply HP; eapply model_Q; exact Hm | eapply IH; exact Erest].
Qed.

Lemma predictHandFingerings_Forall2_scores (P : Note -> Note -> Prop) :
  (forall n pred, Q pred -> P n (fst (resolveFinger n pred))) ->
  forall notes isLeft w out w',
    predictHandFingerings model notes isLeft w = Some (out, w') ->
    Forall2 P (handOrder notes isLeft) out.
Proof.
  intros HP notes isLeft w out w'. unfold predictHandFingerings, handOrder.
  destruct (List.filter _ notes) as [|n l] eqn:E; simpl length.
  - intros H. apply ret_Some in H as [<- _]. constructor.
  - change (S (length l) =? 0)%nat with false. cbv iota.
    now apply handLoop_Forall2_scores.
Qed.

End ScoresFacts.

Lemma Forall2_Forall_r {A B : Type} (R : A -> B -> Prop) (P : B -> Prop)
    (l : list A) (k : list B) :
  (forall a b, R a b -> P b) -> Forall2 R l k -> Forall P k.
Proof. intros HR. induction 1; constructor; eauto. Qed.

Lemma predictHandFingerings_in_range {W : Type} (model : InferenceSession W)
    notes isLeft w out w' :
  at_most_five_scores model ->
  predictHandFingerings model notes isLeft w = Some (out, w') ->
  Forall finger_in_range out.
Proof.
  intros Hfive Hrun.
  apply (Forall2_Forall_r (fun _ r => finger_in_range r) finger_in_range
           (handOrder notes isLeft)); [auto|].
  eapply (predictHandFingerings_Forall2_scores model (fun p => (p < 5)%nat));
    [| |exact Hrun].
  - intros t w0 logits w0' Hm. apply argmax_at_most_five. eapply Hfive, Hm.
  - intros n pred Hpred. now apply resolveFinger_in_range.
Qed.

(** X1. Range of the fingers.  Every returned note has a finger of at
    least 1, whatever the oracle returns; and when neither oracle ever
    returns more than five scores, every note that [predictFingerings]
    returns has a finger between 1 and 5. *)
Theorem fingers_in_range {W : Type} (notes : list Note) (m : Models W)
    (w : W) (out : list Note) (w' : W) :
  predictFingerings notes m w = Some (out, w') ->
  Forall (fun r => exists f, finger r = Some f /\ 1 <= f) out /\
  (at_most_five_scores (left_model m) ->
   at_most_five_scores (right_model m) ->
   Forall finger_in_range out).
Proof.
  intros Hrun. split.
  - eapply (Forall2_Forall_r _ _ (outputOrder notes)).
    2: { eapply (predictFingerings_Forall2
                   (fun _ r => exists f, finger r = Some f /\ 1 <= f));
           [|exact Hrun].
         intros n pred. apply resolveFinger_at_least_one. }
    intros n r [_ H]. exact H.
  - intros Hl Hr.
    apply predictFingerings_Some in Hrun as (l & r & w1 & El & Er & ->).
    eapply Permutation_Forall; [apply js_sort_perm|].
    apply Forall_app. split.
    + exact (predictHandFingerings_in_range _ _ _ _ _ _ Hl El).
    + exact (predictHandFingerings_in_range _ _ _ _ _ _ Hr Er).
Qed.

Lemma fingers_in_range_witness :
  Forall (fun r => exists f, finger r = Some f /\ 1 <= f)
    [ mkNote false 60 0 (Some 500) None (Some 3);
      mkNote false 62 500 (Some 500) None (Some 1);
      mkNote false 64 1000 (Some 500) None (Some 5) ] /\
  (at_most_five_scores (createMockSession 2) ->
   at_most_five_scores (createMockSession 0) ->
   Forall finger_in_range
     [ mkNote false 60 0 (Some 500) None (Some 3);
       mkNote false 62 500 (Some 500) None (Some 1);
       mkNote false 64 1000 (Some 500) None (Some 5) ]).
Proof.
  eapply (fingers_in_range fixedNotes
            (mkModels (createMockSession 2) (createMockSession 0)) []).
  vm_compute. reflexivity.
Defined.

(** Without the bound on the scores there is no bound on the finger: six
    scores with the largest in the last place give finger 6. *)
Example finger_six :
  fingersOf (predictFingerings [freeNote]
               (mkModels sixScoreSession sixScoreSession) tt)
  = Some [Some 6].
Proof. vm_compute. reflexivity. Qed.

(** ** The output is the input with fingers *)

Lemma Forall2_weaken {A B : Type} (R R' : A -> B -> Prop) (l : list A)
    (k : list B) :
  (forall a b, R a b -> R' a b) -> Forall2 R l k -> Forall2 R' l k.
Proof. intros HR. induction 1; constructor; auto. Qed.

Lemma same_fields_clearFinger (n r : Note) :
  same_fields n r -> clearFinger r = clearFinger n.
Proof.
  intros (H1 & H2 & H3 & H4 & H5). unfold clearFinger.
  now rewrite H1, H2, H3, H4, H5.
Qed.

Lemma Forall2_same_fields_clear (ins out : list Note) :
  Forall2 same_fields ins out -> map clearFinger out = map clearFinger ins.
Proof.
  induction 1 as [|n r ins out Hnr _ IH]; simpl; [reflexivity|].
  now rewrite (same_fields_clearFinger n r Hnr), IH.
Qed.

Lemma filter_hand_Forall (notes : list Note) (isLeft : bool) :
  Forall (fun n => left n = isLeft)
    (List.filter (fun n => Bool.eqb (left n) isLeft) notes).
Proof.
  apply Forall_forall. intros n Hn. apply filter_In in Hn as [_ Hn].
  now apply Bool.eqb_prop in Hn.
Qed.

Lemma predictHandFingerings_hand {W : Type} (model : InferenceSession W)
    notes isLeft w out w' :
  predictHandFingerings model notes isLeft w = Some (out, w') ->
  Forall (fun r => left r = isLeft) out.
Proof.
  intros Hrun.
  apply (predictHandFingerings_Forall2 model same_fields) in Hrun;
    [|apply resolveFinger_same_fields].
  assert (Hin : Forall (fun n => left n = isLeft) (handOrder notes isLeft)).
  { eapply Permutation_Forall;
      [apply handOrder_perm | apply filter_hand_Forall]. }
  induction Hrun as [|n r ins out' Hnr _ IH]; constructor.
  - destruct Hnr as [Hl _]. rewrite Hl. now inversion Hin.
  - apply IH. now inversion Hin.
Qed.

(** X2. The output is the input with fingers.  [predictHandFingerings]
    returns one note for each input note of the requested hand and no note
    of the other hand; [predictFingerings] returns as many notes as it was
    given, and with the fingers erased its output is a rearrangement of its
    input: no note is lost, added or altered in another field. *)
Theorem output_is_input_with_fingers {W : Type} (model : InferenceSession W)
    (m : Models W) (notes : list Note) :
  (forall isLeft w out w',
      predictHandFingerings model notes isLeft w = Some (out, w') ->
      Forall (fun r => left r = isLeft) out /\
      length out =
        length (List.filter (fun n => Bool.eqb (left n) isLeft) notes) /\
      Permutation
        (map clearFinger
           (List.filter (fun n => Bool.eqb (left n) isLeft) notes))
        (map clearFinger out)) /\
  (forall w out w',
      predictFingerings notes m w = Some (out, w') ->
      length out = length notes /\
      Permutation (map clearFinger notes) (map clearFinger out)).
Proof.
  split.
  - intros isLeft w out w' Hrun.
    pose proof (predictHandFingerings_hand _ _ _ _ _ _ Hrun) as Hhand.
    apply (predictHandFingerings_Forall2 model same_fields) in Hrun;
      [|apply resolveFinger_same_fields].
    pose proof (handOrder_perm notes isLeft) as Hperm.
    split; [|split].
    + exact Hhand.
    + rewrite <- (Forall2_length Hrun).
      symmetry. now apply Permutation_length.
    + rewrite (Forall2_same_fields_clear _ _ Hrun).
      now apply Permutation_map.
  - intros w out w' Hrun.
    assert (H : Forall2 same_fields (outputOrder notes) out).
    { eapply (Forall2_weaken (fun n r => same_fields n r /\ True)).
      - now intros n r [Hs _].
      - eapply (predictFingerings_Forall2 (fun _ _ => True)); [auto|].
        exact Hrun. }
    pose proof (outputOrder_perm notes) as Hperm. split.
    + rewrite <- (Forall2_length H).
      symmetry. now apply Permutation_length.
    + rewrite (Forall2_same_fields_clear _ _ H). now apply Permutation_map.
Qed.

Lemma output_is_input_with_fingers_witness :
  length [ mkNote true 40 0 (Some 500) None (Some 3);
           mkNote false 60 0 (Some 500) None (Some 3);
           mkNote true 48 1000 (Some 500) None (Some 3);
           mkNote false 72 1000 (Some 500) None (Some 3) ]
    = length scrambledNotes /\
  Permutation (map clearFinger scrambledNotes)
    (map clearFinger
       [ mkNote true 40 0 (Some 500) None (Some 3);
         mkNote false 60 0 (Some 500) None (Some 3);
         mkNote true 48 1000 (Some 500) None (Some 3);
         mkNote false 72 1000 (Some 500) None (Some 3) ]).
Proof.
  eapply (proj2 (output_is_input_with_fingers (createMockSession 2)
                   (mkModels (createMockSession 2) (createMockSession 2))
                   scrambledNotes) []).
  vm_compute. reflexivity.
Defined.

(** ** A hand without notes *)

Lemma filter_none (notes : list Note) (isLeft : bool) :
  Forall (fun n => left n <> isLeft) notes ->
  List.filter (fun n => Bool.eqb (left n) isLeft) notes = [].
Proof.
  induction 1 as [|n notes Hn _ IH]; simpl; [reflexivity|].
  destruct (Bool.eqb (left n) isLeft) eqn:E; [|exact IH].
  apply Bool.eqb_prop in E. contradiction.
Qed.

(** X3. A hand without notes.  When no input note belongs to the requested
    hand, [predictHandFingerings] returns the empty list and leaves the
    oracle as it is: no request is made, so the result does not depend on
    the oracle, not even on whether it would answer.  In particular
    [predictFingerings] on the empty list returns the empty list without
    calling either model. *)
Theorem empty_hand_no_request {W : Type} (model : InferenceSession W)
    (notes : list Note) (isLeft : bool) (w : W) :
  Forall (fun n => left n <> isLeft) notes ->
  predictHandFingerings model notes isLeft w = Some ([], w) /\
  (forall m : Models W, predictFingerings [] m w = Some ([], w)).
Proof.
  intros H. split.
  - unfold predictHandFingerings. now rewrite (filter_none notes isLeft H).
  - reflexivity.
Qed.

Lemma empty_hand_no_request_witness :
  predictHandFingerings (fun _ _ => None) rightHandNotes true tt
    = Some ([], tt) /\
  (forall m : Models unit, predictFingerings [] m tt = Some ([], tt)).
Proof.
  apply (empty_hand_no_request (fun _ _ => None) rightHandNotes true tt).
  repeat constructor; discriminate.
Defined.

(** ** One request per note *)

Section Limited.
Context {W : Type} (model : InferenceSession W).

Lemma noteStep_limited n rest st (w : W) (budget : nat) :
  noteStep (limited model) n rest st (w, budget) =
    match budget with
    | O => None
    | S budget' =>
        match noteStep model n rest st w with
        | Some (step, w') => Some (step, (w', budget'))
        | None => None
        end
    end.
Proof.
  unfold noteStep, bind, limited. simpl. destruct budget; [reflexivity|].
  destruct (model _ w) as [[logits w']|]; [|reflexivity].
  now destruct (resolveFinger n (argmax logits)).
Qed.

Lemma handLoop_limited sorted st (w : W) (budget : nat) :
  handLoop (limited model) sorted st (w, budget) =
    if (length sorted <=? budget)%nat then
      match handLoop model sorted st w with
      | Some (out, w') => Some (out, (w', (budget - length sorted)%nat))
      | None => None
      end
    else None.
Proof.
  revert st w budget.
  induction sorted as [|n rest IH]; intros st w budget.
  - simpl. unfold ret. now rewrite Nat.sub_0_r.
  - rewrite !handLoop_cons, noteStep_limited. simpl length.
    destruct budget as [|budget]; [reflexivity|].
    change (S (length rest) <=? S budget)%nat
      with (length rest <=? budget)%nat.
    destruct (noteStep model n rest st w) as [[[result st'] w1]|].
    + rewrite IH. destruct (length rest <=? budget)%nat; [|reflexivity].
      now destruct (handLoop model rest st' w1) as [[results w2]|].
    + now destruct (length rest <=? budget)%nat.
Qed.

End Limited.

(** X4. One request per note, and a failure is final.  Run against a
    session that answers only [budget] requests, the hand predictor
    behaves as follows, [h] being the number of notes of the hand: if
    [h <= budget] it returns what it returns against the unlimited session
    and uses up exactly [h] of the budget; if [h > budget] the whole run
    fails, and the notes already fingered are not returned. *)
Theorem one_request_per_note {W : Type} (model : InferenceSession W)
    (notes : list Note) (isLeft : bool) (w : W) (budget : nat) :
  predictHandFingerings (limited model) notes isLeft (w, budget) =
    let h := length (List.filter (fun n => Bool.eqb (left n) isLeft) notes) in
    if (h <=? budget)%nat then
      match predictHandFingerings model notes isLeft w with
      | Some (out, w') => Some (out, (w', (budget - h)%nat))
      | None => None
      end
    else None.
Proof.
  unfold predictHandFingerings.
  destruct (List.filter _ notes) as [|n l] eqn:E.
  - simpl. unfold ret. now rewrite Nat.sub_0_r.
  - change (length (n :: l) =? 0)%nat with false. cbv iota zeta.
    rewrite handLoop_limited. unfold sortNotes.
    now rewrite js_sort_length.
Qed.

(** ** Range of the token values *)

Lemma Math_clamp_unit (t : number) :
  0 <= Math_max 0 (Math_min t 10) / 10 /\ Math_max 0 (Math_min t 10) / 10 <= 1.
Proof.
  unfold Math_max, Math_min.
  pose proof (Q.le_max_l 0 (Qmin t 10)) as Hlo.
  assert (Hhi : Qmax 0 (Qmin t 10) <= 10).
  { apply Q.max_lub; [lra | apply Q.le_min_r]. }
  remember (Qmax 0 (Qmin t 10)) as c eqn:Ec. clear Ec.
  split.
  - assert (H : c / 10 == c * (1 # 10)) by field. rewrite H. lra.
  - assert (H : c / 10 == c * (1 # 10)) by field. rewrite H. lra.
Qed.

Lemma Math_min_unit (t : number) :
  0 <= t -> 0 <= Math_min (t / 1000) 10 / 10 /\ Math_min (t / 1000) 10 / 10 <= 1.
Proof.
  intros Ht. unfold Math_min.
  assert (Ht' : 0 <= t / 1000).
  { assert (H : t / 1000 == t * (1 # 1000)) by field. rewrite H. lra. }
  assert (Hlo : 0 <= Qmin (t / 1000) 10) by (apply Q.min_glb; lra).
  pose proof (Q.le_min_r (t / 1000) 10) as Hhi.
  remember (Qmin (t / 1000) 10) as c eqn:Ec. clear Ec.
  assert (H : c / 10 == c * (1 # 10)) by field. rewrite H. split; lra.
Qed.

Lemma isBlackKey_unit (midi : number) : in_unit_range (isBlackKey midi).
Proof.
  unfold isBlackKey, in_unit_range.
  destruct (Qltb midi 0); [split; lra|]. destruct (set_has _ _); split; lra.
Qed.

Lemma offset_unit (midi cur : number) :
  21 <= midi -> midi <= 108 -> 21 <= cur -> cur <= 108 ->
  in_unit_range ((midi - 21) / 87 - (cur - 21) / 87).
Proof.
  intros H1 H2 H3 H4. unfold in_unit_range.
  assert (H : (midi - 21) / 87 - (cur - 21) / 87 == (midi - cur) * (1 # 87))
    by field.
  rewrite H. split; lra.
Qed.

Lemma Qmod_12_of_Z (z : Z) :
  Qmod (inject_Z z) 12 == inject_Z (z mod 12).
Proof.
  unfold Qmod. change 12 with (inject_Z 12) at 2.
  rewrite <- Zdiv_Qdiv.
  rewrite (Z.div_mod z 12) at 1 by lia.
  rewrite inject_Z_plus, inject_Z_mult. change (inject_Z 12) with 12. lra.
Qed.

Lemma Qmod_12_comp (x y : Q) : x == y -> Qmod x 12 == Qmod y 12.
Proof.
  intros H. unfold Qmod.
  assert (Hd : x / 12 == y / 12) by now rewrite H.
  rewrite (Qfloor_comp _ _ Hd). now rewrite H.
Qed.

(** The pitch class of an integer pitch that is not negative. *)
Lemma midiToPitchClass_of_Z (z : Z) (midi : number) :
  midi == inject_Z z -> (0 <= z)%Z ->
  midiToPitchClass midi == inject_Z ((z - 21) mod 12) / 11.
Proof.
  intros Hm Hz. unfold midiToPitchClass.
  assert (Hpos : 0 <= midi).
  { rewrite Hm. change 0 with (inject_Z 0). now rewrite <- Zle_Qle. }
  apply Qltb_ge in Hpos. rewrite Hpos.
  rewrite double_rem_is_mod.
  rewrite (Qmod_12_comp (midi - 21) (inject_Z (z - 21))).
  - now rewrite Qmod_12_of_Z.
  - unfold Z.sub. rewrite inject_Z_plus, inject_Z_opp, Hm.
    change (inject_Z 21) with 21. lra.
Qed.

Lemma midiToPitchClass_unit (z : Z) (midi : number) :
  midi == inject_Z z -> (0 <= z)%Z -> in_unit_range (midiToPitchClass midi).
Proof.
  intros Hm Hz. unfold in_unit_range.
  rewrite (midiToPitchClass_of_Z z midi Hm Hz).
  pose proof (Z.mod_pos_bound (z - 21) 12 ltac:(lia)) as [Hlo Hhi].
  assert (H0 : 0 <= inject_Z ((z - 21) mod 12)).
  { change 0 with (inject_Z 0). now rewrite <- Zle_Qle. }
  assert (H11 : inject_Z ((z - 21) mod 12) <= 11).
  { change 11 with (inject_Z 11). rewrite <- Zle_Qle. lia. }
  remember (inject_Z ((z - 21) mod 12)) as c eqn:Ec. clear Ec.
  assert (H : c / 11 == c * (1 # 11)) by field. rewrite H. split; lra.
Qed.

Lemma Forall_flat_map_rows {A B : Type} (P : B -> Prop) (f : A -> list B)
    (l : list A) :
  (forall a, Forall P (f a)) -> Forall P (flat_map f l).
Proof.
  intros H. induction l as [|a l IH]; simpl; [constructor|].
  apply Forall_app. split; [apply H | exact IH].
Qed.

Lemma nth_pitch_or_absent (lastMidi : list number) (f : nat) :
  Forall pitch_or_absent lastMidi -> pitch_or_absent (nth f lastMidi (-1)).
Proof.
  intros H. destruct (lastMidi !! f) as [p|] eqn:E.
  - rewrite (nth_lookup_Some _ _ _ _ E).
    rewrite Forall_forall in H. apply H.
    apply list_elem_of_In. eapply list_elem_of_lookup_2, E.
  - rewrite nth_lookup, E. left. simpl. lra.
Qed.

(** X5. Range of the token values.  When the pitch of the current note is
    an integer from 21 to 108, and every pitch of the finger state and of
    the lookahead notes is in 21-108 or negative (absent), each of the 130
    values that the encoder returns lies between -1 and 1.  The times, the
    durations and the finger hints are arbitrary. *)
Theorem tokens_in_unit_range (z : Z) (currentMidi : number)
    (lastMidi : list number) (lastTime : list ExtNum)
    (lookaheadNotes : list LookaheadNote) :
  currentMidi == inject_Z z -> (21 <= z <= 108)%Z ->
  Forall pitch_or_absent lastMidi ->
  Forall (fun ln => pitch_or_absent (ln_midi ln)) lookaheadNotes ->
  Forall in_unit_range
    (buildTokens currentMidi lastMidi lastTime lookaheadNotes).
Proof.
  intros Hcur Hz Hlast Hlook.
  assert (Hc21 : 21 <= currentMidi).
  { rewrite Hcur. change 21 with (inject_Z 21). rewrite <- Zle_Qle. lia. }
  assert (Hc108 : currentMidi <= 108).
  { rewrite Hcur. change 108 with (inject_Z 108). rewrite <- Zle_Qle. lia. }
  assert (Hoffset : forall midi,
    pitch_or_absent midi ->
    in_unit_range (if Qgeb midi 0
                   then (midi - 21) / 87 - (currentMidi - 21) / 87 else -1)).
  { intros midi [Hneg | [H21 H108]].
    - apply Qgeb_lt in Hneg. rewrite Hneg. unfold in_unit_range. split; lra.
    - assert (Hpos : 0 <= midi) by lra. apply Qgeb_ge in Hpos. rewrite Hpos.
      now apply offset_unit. }
  assert (Hblack : forall midi,
    in_unit_range (if Qgeb midi 0 then isBlackKey midi else -1)).
  { intros midi. destruct (Qgeb midi 0); [apply isBlackKey_unit|].
    unfold in_unit_range. split; lra. }
  unfold buildTokens. apply Forall_app. split; [|apply Forall_app; split].
  - apply Forall_flat_map_rows. intros f. unfold previous_token.
    repeat first [apply List.Forall_nil | apply List.Forall_cons];
      try (unfold in_unit_range; split; lra).
    + apply Hoffset, nth_pitch_or_absent, Hlast.
    + destruct (nth f lastTime PosInf) as [|t]; [unfold in_unit_range; split; lra|].
      destruct (Math_clamp_unit t). unfold in_unit_range. split; lra.
    + apply Hblack.
  - unfold current_token.
    repeat first [apply List.Forall_nil | apply List.Forall_cons];
      try (unfold in_unit_range; split; lra).
    + apply (midiToPitchClass_unit z); [exact Hcur | lia].
    + apply isBlackKey_unit.
    + unfold in_unit_range.
      assert (H : 1 / 2 == 1 # 2) by reflexivity. rewrite H. split; lra.
  - apply Forall_flat_map_rows. intros j. unfold lookahead_token.
    destruct (lookaheadNotes !! j) as [ln|] eqn:E.
    2: { repeat first [apply List.Forall_nil | apply List.Forall_cons];
         unfold in_unit_range; split; lra. }
    assert (Hln : pitch_or_absent (ln_midi ln)).
    { rewrite Forall_forall in Hlook. apply Hlook.
      apply list_elem_of_In. eapply list_elem_of_lookup_2, E. }
    repeat first [apply List.Forall_nil | apply List.Forall_cons];
      try (unfold in_unit_range; split; lra).
    + now apply Hoffset.
    + destruct (Qltb (ln_timeUntil ln) 0) eqn:Et; [unfold in_unit_range; split; lra|].
      apply Qltb_ge in Et. destruct (Math_min_unit _ Et).
      unfold in_unit_range. split; lra.
    + apply Hblack.
    + destruct (ln_finger ln) as [fg|]; [|unfold in_unit_range; split; lra].
      destruct (Qgeb fg 0 && Qle_bool fg 4) eqn:Eg;
        [|unfold in_unit_range; split; lra].
      apply andb_true_iff in Eg as [H0 H4].
      apply Qgeb_ge in H0. apply Qle_bool_iff in H4.
      unfold in_unit_range.
      assert (H : fg / 4 == fg * (1 # 4)) by field. rewrite H. split; lra.
Qed.

Lemma tokens_in_unit_range_witness :
  Forall in_unit_range
    (buildTokens 60 [64; -1; -1; -1; -1]
       [Fin 1; PosInf; PosInf; PosInf; PosInf]
       [ mkLookahead 67 300 None; mkLookahead (-1) 600 (Some 2) ]).
Proof.
  apply (tokens_in_unit_range 60).
  - reflexivity.
  - lia.
  - repeat first [apply List.Forall_nil | apply List.Forall_cons];
      unfold pitch_or_absent;
      first [left; reflexivity | right; split; discriminate].
  - repeat first [apply List.Forall_nil | apply List.Forall_cons];
      unfold pitch_or_absent; simpl;
      first [left; reflexivity | right; split; discriminate].
Defined.

(** ** The processing order *)

Lemma note_le_trans (a b c : Note) : note_le a b -> note_le b c -> note_le a c.
Proof.
  unfold note_le. intros [Hab | [Hab Hab']] [Hbc | [Hbc Hbc']].
  - left. lra.
  - left. lra.
  - left. lra.
  - right. split; lra.
Qed.

Lemma compareNotes_trans (a b c : Note) :
  cmp_le compareNotes a b -> cmp_le compareNotes b c ->
  cmp_le compareNotes a c.
Proof.
  unfold cmp_le. rewrite !compareNotes_le. apply note_le_trans.
Qed.

Lemma sortNotes_strongly_sorted (l : list Note) :
  StronglySorted (cmp_le compareNotes) (sortNotes l).
Proof.
  apply Sorted_StronglySorted.
  - intros a b c. apply compareNotes_trans.
  - apply js_sort_sorted, compareNotes_total.
Qed.

Lemma StronglySorted_suffix {A : Type} (R : A -> A -> Prop)
    (pre : list A) (x : A) (rest : list A) :
  StronglySorted R (pre ++ x :: rest) -> Forall (R x) rest.
Proof.
  induction pre as [|p pre IH]; simpl; intros H.
  - now apply StronglySorted_inv in H as [_ H].
  - apply IH. now apply StronglySorted_inv in H as [H _].
Qed.

Lemma lookup_map {A B : Type} (f : A -> B) (l : list A) (i : nat) :
  map f l !! i = option_map f (l !! i).
Proof.
  revert i. induction l as [|x l IH]; intros [|i]; simpl; auto.
Qed.

(** X6. Lookahead notes are never in the past.  A note of a hand ([n])
    starts no later than the notes that follow it in processing order
    ([rest]); so in the request for [n] the time-until feature of each of
    the next 20 notes is [min (gap / 1000) 10 / 10] with a gap that is not
    negative, never the sentinel of a negative gap, and the time by which
    the finger state is aged before the next note is not negative. *)
Theorem lookahead_never_in_the_past (notes : list Note) (isLeft : bool)
    (pre : list Note) (n : Note) (rest : list Note)
    (lastMidi : list number) (lastTime : list ExtNum) :
  handOrder notes isLeft = pre ++ n :: rest ->
  (forall (j : nat) (fn : Note),
      (j < 20)%nat -> rest !! j = Some fn ->
      0 <= time fn - time n /\
      token_at
        (buildTokens (note n) lastMidi lastTime
           (map (lookaheadEntry (time n)) (take 20 rest))) (6 + j) 1
        = Some (Math_min ((time fn - time n) / 1000) 10 / 10)) /\
  (forall next rest', rest = next :: rest' ->
      0 <= (time next - time n) / 1000).
Proof.
  intros Horder.
  assert (Hafter : Forall (fun fn => time n <= time fn) rest).
  { pose proof (sortNotes_strongly_sorted
                  (List.filter (fun n => Bool.eqb (left n) isLeft) notes))
      as Hs.
    fold (handOrder notes isLeft) in Hs. rewrite Horder in Hs.
    apply StronglySorted_suffix in Hs.
    revert Hs. apply List.Forall_impl.
    intros fn Hle. apply compareNotes_le in Hle.
    destruct Hle as [Hlt | [Heq _]]; lra. }
  split.
  - intros j fn Hj Hfn.
    assert (Hle : time n <= time fn).
    { rewrite Forall_forall in Hafter. apply Hafter.
      apply list_elem_of_In. eapply list_elem_of_lookup_2, Hfn. }
    split; [lra|].
    rewrite token_at_lookahead by lia.
    rewrite lookup_map, lookup_take_lt, Hfn by exact Hj. simpl.
    assert (Hnn : Qltb (time fn - time n) 0 = false) by (apply Qltb_ge; lra).
    now rewrite Hnn.
  - intros next rest' ->.
    assert (Hle : time n <= time next) by now inversion Hafter.
    assert (H : (time next - time n) / 1000
                == (time next - time n) * (1 # 1000)) by field.
    rewrite H. lra.
Qed.

Lemma lookahead_never_in_the_past_witness :
  (forall (j : nat) (fn : Note),
      (j < 20)%nat ->
      [ mkNote false 62 500 (Some 500) None None;
        mkNote false 64 1000 (Some 500) None (Some 5) ] !! j = Some fn ->
      0 <= time fn - time openingNote /\
      token_at
        (buildTokens (note openingNote)
           (fingerLastMidi initialFingerState)
           (fingerLastTime initialFingerState)
           (map (lookaheadEntry (time openingNote))
              (take 20 [ mkNote false 62 500 (Some 500) None None;
                         mkNote false 64 1000 (Some 500) None (Some 5) ])))
        (6 + j) 1
        = Some (Math_min ((time fn - time openingNote) / 1000) 10 / 10)) /\
  (forall next rest',
      [ mkNote false 62 500 (Some 500) None None;
        mkNote false 64 1000 (Some 500) None (Some 5) ] = next :: rest' ->
      0 <= (time next - time openingNote) / 1000).
Proof.
  apply (lookahead_never_in_the_past fixedNotes false []). reflexivity.
Defined.

(** ** The lookahead rows of a request *)

Lemma flat_map_ext_in {A B : Type} (f g : A -> list B) (l : list A) :
  (forall a, In a l -> f a = g a) -> flat_map f l = flat_map g l.
Proof.
  induction l as [|a l IH]; intros H; simpl; [reflexivity|].
  rewrite (H a) by now left. rewrite IH; [reflexivity|].
  intros b Hb. apply H. now right.
Qed.

(** The encoder reads the first 20 lookahead notes only. *)
Lemma buildTokens_take_20 currentMidi lastMidi lastTime lookaheadNotes :
  buildTokens currentMidi lastMidi lastTime (take 20 lookaheadNotes) =
  buildTokens currentMidi lastMidi lastTime lookaheadNotes.
Proof.
  unfold buildTokens. do 2 f_equal.
  apply flat_map_ext_in. intros j Hj. apply in_seq in Hj.
  now rewrite lookup_take_lt by lia.
Qed.

(** X7. The lookahead rows of a request.  In the request for a note [n]
    that is followed by the notes [rest]: the row of each of the next 20
    notes has token type 1 and, as finger hint, [(f - 1) / 4] when that
    note carries a finger [f] with [1 <= f <= 5], and -1 when it carries
    none or one outside that range; every row past the last following note
    is filled with -1; and the notes beyond the 20th make no difference to
    the request. *)
Theorem lookahead_rows (n : Note) (rest : list Note)
    (lastMidi : list number) (lastTime : list ExtNum) :
  let tokens :=
    buildTokens (note n) lastMidi lastTime
      (map (lookaheadEntry (time n)) (take 20 rest)) in
  (forall (j : nat) (fn : Note),
      (j < 20)%nat -> rest !! j = Some fn ->
      token_at tokens (6 + j) 3 = Some 1 /\
      (forall f : number,
          finger fn = Some f -> 1 <= f -> f <= 5 ->
          token_at tokens (6 + j) 4 = Some ((f - 1) / 4)) /\
      (is_fixed_finger (finger fn) = false ->
       token_at tokens (6 + j) 4 = Some (-1))) /\
  (forall j c : nat,
      (j < 20)%nat -> (c < 5)%nat -> (length rest <= j)%nat ->
      token_at tokens (6 + j) c = Some (-1)) /\
  tokens =
    buildTokens (note n) lastMidi lastTime (map (lookaheadEntry (time n)) rest).
Proof.
  intros tokens. unfold tokens. split; [|split].
  - intros j fn Hj Hfn. rewrite !token_at_lookahead by lia.
    rewrite lookup_map, lookup_take_lt, Hfn by exact Hj. simpl.
    split; [reflexivity|]. split.
    + intros f Hf H1 H5. rewrite Hf.
      assert (Hg : Qgeb f 1 && Qle_bool f 5 = true).
      { apply andb_true_iff. split; [now apply Qgeb_ge | now apply Qle_bool_iff]. }
      rewrite Hg.
      assert (Hh : Qgeb (f - 1) 0 && Qle_bool (f - 1) 4 = true).
      { apply andb_true_iff.
        split; [apply Qgeb_ge | apply Qle_bool_iff]; lra. }
      now rewrite Hh.
    + unfold is_fixed_finger. destruct (finger fn) as [f|]; [|reflexivity].
      now intros ->.
  - intros j c Hj Hc Hlen. rewrite token_at_lookahead by lia.
    rewrite lookup_map, lookup_take_lt by exact Hj.
    rewrite (lookup_ge_None_2 rest j) by lia. simpl.
    do 5 (destruct c as [|c]; [reflexivity|]). lia.
  - rewrite <- firstn_map. apply buildTokens_take_20.
Qed.

Lemma lookahead_rows_witness :
  let tokens :=
    buildTokens (note openingNote) (fingerLastMidi initialFingerState)
      (fingerLastTime initialFingerState)
      (map (lookaheadEntry (time openingNote))
         (take 20 [ mkNote false 62 500 (Some 500) None None;
                    mkNote false 64 1000 (Some 500) None (Some 5) ])) in
  token_at tokens 7 3 = Some 1 /\
  token_at tokens 7 4 = Some ((5 - 1) / 4) /\
  token_at tokens 6 4 = Some (-1) /\
  token_at tokens 8 0 = Some (-1).
Proof.
  intros tokens.
  destruct (lookahead_rows openingNote
              [ mkNote false 62 500 (Some 500) None None;
                mkNote false 64 1000 (Some 500) None (Some 5) ]
              (fingerLastMidi initialFingerState)
              (fingerLastTime initialFingerState)) as (Hrow & Hpad & _).
  destruct (Hrow 1%nat (mkNote false 64 1000 (Some 500) None (Some 5))
              ltac:(lia) eq_refl) as (Htype & Hhint & _).
  destruct (Hrow 0%nat (mkNote false 62 500 (Some 500) None None)
              ltac:(lia) eq_refl) as (_ & _ & Hnone).
  split; [exact Htype|].
  split; [apply (Hhint 5); [reflexivity | discriminate | discriminate]|].
  split; [apply Hnone; reflexivity|].
  apply (Hpad 2%nat 0%nat); simpl; lia.
Defined.

(** ** The previous-finger rows of a request *)

(** X8. The previous-finger rows.  In the first request of a hand every
    previous-finger row is [-1; 1; -1; 0; -1]: no pitch, never used.  After
    a note [n] has been given the finger with index [i], the request for
    the next note [next] describes that finger in row [i] by the pitch of
    [n] relative to the pitch of [next] and by the time since [n] ended,
    the gap between the onsets minus the duration of [n] (100 ms when it
    has none), in seconds, clamped to [0, 10] and divided by 10; while [n]
    is still sounding when [next] starts, that feature is 0. *)
Theorem previous_rows (st : FingerState) (n next : Note) (rest : list Note)
    (fg : number) (i : nat) (lookaheadNotes : list LookaheadNote) :
  length (fingerLastMidi st) = 5%nat ->
  length (fingerLastTime st) = 5%nat ->
  (i < 5)%nat -> fg - 1 == inject_Z (Z.of_nat i) ->
  let st' := nextFingerState st n fg (next :: rest) in
  let held :=
    - (match duration n with Some d => d | None => 100 end / 1000)
    + (time next - time n) / 1000 in
  let tokens :=
    buildTokens (note next) (fingerLastMidi st') (fingerLastTime st')
      lookaheadNotes in
  (forall f : nat,
      (f < 5)%nat ->
      map (token_at (buildTokens (note n)
                       (fingerLastMidi initialFingerState)
                       (fingerLastTime initialFingerState) lookaheadNotes) f)
          [0; 1; 2; 3; 4]%nat
      = [Some (-1); Some 1; Some (-1); Some 0; Some (-1)]) /\
  token_at tokens i 1 = Some (Math_max 0 (Math_min held 10) / 10) /\
  (0 <= note n ->
   token_at tokens i 0 = Some ((note n - 21) / 87 - (note next - 21) / 87)) /\
  (held <= 0 -> Math_max 0 (Math_min held 10) / 10 == 0).
Proof.
  intros Hm Ht Hi Hfg st' held tokens. split; [|split; [|split]].
  - intros f Hf. simpl map. rewrite !token_at_previous by lia.
    do 5 (destruct f as [|f]; [reflexivity|]). lia.
  - unfold tokens. rewrite token_at_previous by lia. simpl.
    assert (Hlook : fingerLastTime st' !! i = Some (Fin held)).
    { unfold st', nextFingerState.
      rewrite ageFingers_lookup
        by (rewrite (proj2 (updateFinger_lengths _ _ _ _)); exact Ht).
      simpl. rewrite arr_set_lookup_eq by (first [lia | exact Hfg]).
      simpl. unfold held. now destruct (duration n). }
    now rewrite (nth_lookup_Some _ _ _ _ Hlook).
  - intros Hpos. unfold tokens. rewrite token_at_previous by lia. simpl.
    assert (Hlook : fingerLastMidi st' !! i = Some (note n)).
    { unfold st', nextFingerState. simpl.
      apply arr_set_lookup_eq; [lia | exact Hfg]. }
    rewrite (nth_lookup_Some _ _ _ _ Hlook).
    apply Qgeb_ge in Hpos. now rewrite Hpos.
  - intros Hheld. unfold Math_max, Math_min.
    assert (Hmin : Qmin held 10 <= 0).
    { eapply Qle_trans; [apply Q.le_min_l | exact Hheld]. }
    rewrite (Q.max_l 0 (Qmin held 10) Hmin). reflexivity.
Qed.

Lemma previous_rows_witness :
  let st' := nextFingerState initialFingerState openingNote 3 [laterNote] in
  let held := - (500 / 1000) + (300 - 0) / 1000 in
  let tokens :=
    buildTokens (note laterNote) (fingerLastMidi st') (fingerLastTime st') []
  in
  (forall f : nat,
      (f < 5)%nat ->
      map (token_at (buildTokens (note openingNote)
                       (fingerLastMidi initialFingerState)
                       (fingerLastTime initialFingerState) []) f)
          [0; 1; 2; 3; 4]%nat
      = [Some (-1); Some 1; Some (-1); Some 0; Some (-1)]) /\
  token_at tokens 2 1 = Some (Math_max 0 (Math_min held 10) / 10) /\
  (0 <= note openingNote ->
   token_at tokens 2 0
     = Some ((note openingNote - 21) / 87 - (note laterNote - 21) / 87)) /\
  (held <= 0 -> Math_max 0 (Math_min held 10) / 10 == 0).
Proof.
  apply (previous_rows initialFingerState openingNote laterNote [] 3 2 []).
  - reflexivity.
  - reflexivity.
  - lia.
  - reflexivity.
Defined.

(** ** Sorting what is sorted *)

Section SortAgain.
Context {A : Type} (cmp : A -> A -> number).

Lemma sort_insert_front (x : A) (l : list A) :
  Forall (cmp_le cmp x) l -> sort_insert cmp x l = x :: l.
Proof.
  intros H. destruct l as [|y l]; [reflexivity|]. simpl.
  assert (Hxy : cmp_le cmp x y) by now inversion H.
  apply Qle_bool_iff in Hxy. now rewrite Hxy.
Qed.

Lemma sort_insert_behind (x a : A) (l : list A) :
  ~ cmp_le cmp x a -> sort_insert cmp x (a :: l) = a :: sort_insert cmp x l.
Proof.
  intros H. simpl. destruct (Qle_bool (cmp x a) 0) eqn:E; [|reflexivity].
  apply Qle_bool_iff in E. contradiction.
Qed.

(** A sorted array is left as it is. *)
Lemma js_sort_sorted_id (l : list A) :
  StronglySorted (cmp_le cmp) l -> js_sort cmp l = l.
Proof.
  induction 1 as [|a l Hl IH Ha]; simpl; [reflexivity|].
  rewrite IH. now apply sort_insert_front.
Qed.

(** An element that is below everything around it comes out first. *)
Lemma js_sort_pull (xs : list A) (a : A) (ys : list A) :
  Forall (fun x => ~ cmp_le cmp x a) xs ->
  Forall (cmp_le cmp a) (xs ++ ys) ->
  js_sort cmp (xs ++ a :: ys) = a :: js_sort cmp (xs ++ ys).
Proof.
  intros Hxs Hall. induction xs as [|x xs IH]; simpl.
  - apply sort_insert_front.
    eapply Permutation_Forall; [apply js_sort_perm | exact Hall].
  - rewrite IH.
    + apply sort_insert_behind. now inversion Hxs.
    + now inversion Hxs.
    + now inversion Hall.
Qed.

Context (p : A -> bool).

(** Splitting a sorted array by [p] and sorting the two parts joined gives
    the array back. *)
Lemma js_sort_split_id (l : list A) :
  StronglySorted (cmp_le cmp) l -> ties_first cmp p l ->
  js_sort cmp (List.filter p l ++ List.filter (fun a => negb (p a)) l) = l.
Proof.
  induction 1 as [|a l Hl IH Ha]; intros Hties; [reflexivity|].
  destruct Hties as [Hfirst Hties]. specialize (IH Hties). simpl.
  destruct (p a) eqn:Epa; simpl.
  - rewrite IH. now apply sort_insert_front.
  - rewrite js_sort_pull.
    + now rewrite IH.
    + specialize (Hfirst eq_refl).
      apply Forall_forall. intros x Hx. apply filter_In in Hx as [Hx Hpx].
      rewrite Forall_forall in Hfirst. apply Hfirst; [exact Hx | exact Hpx].
    + apply Forall_app. split.
      * apply Forall_forall. intros x Hx. apply filter_In in Hx as [Hx _].
        rewrite Forall_forall in Ha. now apply Ha.
      * apply Forall_forall. intros x Hx. apply filter_In in Hx as [Hx _].
        rewrite Forall_forall in Ha. now apply Ha.
Qed.

Lemma ties_first_none (l : list A) :
  Forall (fun a => p a = false) l -> ties_first cmp p l.
Proof.
  induction 1 as [|a l Ha Hl IH]; simpl; [exact I|]. split; [|exact IH].
  intros _. revert Hl. apply List.Forall_impl. intros b Hb Hb'. congruence.
Qed.

Lemma sort_insert_ties_first (x : A) (l : list A) :
  p x = true -> ties_first cmp p l -> ties_first cmp p (sort_insert cmp x l).
Proof.
  intros Hx. induction l as [|y l IH]; intros Hl; simpl.
  - split; [congruence | exact I].
  - destruct (Qle_bool (cmp x y) 0) eqn:E.
    + split; [congruence | exact Hl].
    + destruct Hl as [Hy Hl]. split; [|now apply IH].
      intros Hpy. specialize (Hy Hpy).
      eapply Permutation_Forall; [apply sort_insert_perm|].
      constructor; [|exact Hy].
      intros _ Hle. apply Qle_bool_iff in Hle. congruence.
Qed.

(** The sort is stable where it matters here: joined with the elements
    that pass [p] in front, no tie is resolved the other way. *)
Lemma js_sort_ties_first (ls rs : list A) :
  Forall (fun a => p a = true) ls -> Forall (fun a => p a = false) rs ->
  ties_first cmp p (js_sort cmp (ls ++ rs)).
Proof.
  intros Hls Hrs. induction Hls as [|x ls Hx _ IH]; simpl.
  - apply ties_first_none.
    eapply Permutation_Forall; [apply js_sort_perm | exact Hrs].
  - now apply sort_insert_ties_first.
Qed.

End SortAgain.

Lemma StronglySorted_filter {A : Type} (R : A -> A -> Prop) (p : A -> bool)
    (l : list A) :
  StronglySorted R l -> StronglySorted R (List.filter p l).
Proof.
  induction 1 as [|a l Hl IH Ha]; simpl; [constructor|].
  destruct (p a); [|exact IH]. constructor; [exact IH|].
  apply Forall_forall. intros x Hx. apply filter_In in Hx as [Hx _].
  rewrite Forall_forall in Ha. now apply Ha.
Qed.

(** For notes in order, [lefts_first] is [ties_first]. *)
Lemma lefts_first_ties_first (l : list Note) :
  StronglySorted (cmp_le compareNotes) l ->
  (lefts_first l <-> ties_first compareNotes left l).
Proof.
  induction 1 as [|a l Hl IH Ha]; simpl; [tauto|].
  rewrite IH. split; intros [H1 H2]; (split; [|exact H2]); intros Hla;
    specialize (H1 Hla); rewrite Forall_forall in *; intros b Hb Hlb.
  - intros Hba. apply (H1 b Hb Hlb).
    specialize (Ha b Hb). apply compareNotes_le in Ha, Hba.
    destruct Ha as [Ha | [Ha Ha']], Hba as [Hba | [Hba Hba']];
      first [lra | split; lra].
  - intros [Ht Hn]. apply (H1 b Hb Hlb). apply compareNotes_le.
    right. split; lra.
Qed.

(** ** Notes that have their fingers already *)

Lemma finger_in_range_fixed (r : Note) :
  finger_in_range r <-> is_fixed_finger (finger r) = true.
Proof. unfold finger_in_range. now rewrite is_fixed_finger_spec. Qed.

Lemma Sorted_note_le_strongly (l : list Note) :
  Sorted note_le l -> StronglySorted (cmp_le compareNotes) l.
Proof.
  intros H. apply Sorted_StronglySorted.
  - intros a b c. apply compareNotes_trans.
  - induction H as [|a l Hl IH Hhd]; constructor; [exact IH|].
    destruct Hhd as [|b l' Hab]; constructor.
    now apply compareNotes_le.
Qed.

Section FixedNotes.
Context {W : Type} (model : InferenceSession W).
Hypothesis model_answers : never_fails model.

Lemma handLoop_all_fixed (sorted : list Note) st w :
  Forall finger_in_range sorted ->
  exists w', handLoop model sorted st w = Some (sorted, w').
Proof.
  intros H. revert st w.
  induction H as [|n rest Hn _ IH]; intros st w.
  - exists w. reflexivity.
  - rewrite handLoop_cons.
    destruct (model_answers
      (buildTokens (note n) (fingerLastMidi st) (fingerLastTime st)
         (map (lookaheadEntry (time n)) (take 20 rest))) w)
      as [[logits w1] Hm].
    destruct Hn as (f & Hf & H1 & H5).
    assert (Hstep : noteStep model n rest st w =
                    Some ((n, nextFingerState st n f rest), w1)).
    { apply noteStep_Some. exists logits. split; [exact Hm|].
      now rewrite (resolveFinger_fixed n (argmax logits) f Hf H1 H5). }
    rewrite Hstep.
    destruct (IH (nextFingerState st n f rest) w1) as [w2 ->].
    now exists w2.
Qed.

Lemma predictHandFingerings_all_fixed (l : list Note) (isLeft : bool) w :
  StronglySorted (cmp_le compareNotes) l -> Forall finger_in_range l ->
  exists w',
    predictHandFingerings model l isLeft w =
      Some (List.filter (fun n => Bool.eqb (left n) isLeft) l, w').
Proof.
  intros Hs Hf. unfold predictHandFingerings.
  assert (Hhs : StronglySorted (cmp_le compareNotes)
                  (List.filter (fun n => Bool.eqb (left n) isLeft) l))
    by now apply StronglySorted_filter.
  assert (Hhf : Forall finger_in_range
                  (List.filter (fun n => Bool.eqb (left n) isLeft) l)).
  { apply Forall_forall. intros n Hn. apply filter_In in Hn as [Hn _].
    rewrite Forall_forall in Hf. now apply Hf. }
  destruct (List.filter (fun n => Bool.eqb (left n) isLeft) l)
    as [|n hand].
  - exists w. reflexivity.
  - change (length (n :: hand) =? 0)%nat with false. cbv iota.
    unfold sortNotes. rewrite (js_sort_sorted_id _ _ Hhs).
    now apply handLoop_all_fixed.
Qed.

End FixedNotes.

Lemma filter_right_negb (l : list Note) :
  List.filter (fun n => Bool.eqb (left n) false) l =
  List.filter (fun n => negb (left n)) l.
Proof. apply filter_ext. intros n. now destruct (left n). Qed.

Lemma filter_left_id (l : list Note) :
  List.filter (fun n => Bool.eqb (left n) true) l = List.filter left l.
Proof. apply filter_ext. intros n. now destruct (left n). Qed.

(** X9. A fingered score comes back as it is.  When the input is in order
    of onset and pitch, no left-hand note stands after a right-hand note of
    the same onset and pitch, and every note carries a finger between 1
    and 5, then [predictFingerings] returns the input list itself, same
    notes in the same order, whatever the oracles score (they are still
    called, and must answer). *)
Theorem fingered_score_unchanged {W : Type} (l : list Note) (m : Models W)
    (w : W) :
  never_fails (left_model m) -> never_fails (right_model m) ->
  Sorted note_le l -> lefts_first l -> Forall finger_in_range l ->
  exists w', predictFingerings l m w = Some (l, w').
Proof.
  intros Hl Hr Hsorted Hties Hfixed.
  apply Sorted_note_le_strongly in Hsorted.
  destruct (predictHandFingerings_all_fixed _ Hl l true w Hsorted Hfixed)
    as [w1 H1].
  destruct (predictHandFingerings_all_fixed _ Hr l false w1 Hsorted Hfixed)
    as [w2 H2].
  exists w2. apply predictFingerings_Some.
  eexists _, _, w1. split; [exact H1|]. split; [exact H2|].
  rewrite filter_right_negb, filter_left_id. unfold sortNotes.
  symmetry. apply js_sort_split_id; [exact Hsorted|].
  now apply lefts_first_ties_first.
Qed.

Lemma fingered_score_unchanged_witness :
  exists w',
    predictFingerings
      [ mkNote true 40 0 (Some 500) None (Some 3);
        mkNote false 60 0 (Some 500) None (Some 3);
        mkNote true 48 1000 (Some 500) None (Some 3);
        mkNote false 72 1000 (Some 500) None (Some 3) ]
      (mkModels tiedSession tiedSession) tt
    = Some ([ mkNote true 40 0 (Some 500) None (Some 3);
              mkNote false 60 0 (Some 500) None (Some 3);
              mkNote true 48 1000 (Some 500) None (Some 3);
              mkNote false 72 1000 (Some 500) None (Some 3) ], w').
Proof.
  apply (fingered_score_unchanged _ (mkModels tiedSession tiedSession) tt).
  - intros t w. now eexists.
  - intros t w. now eexists.
  - repeat first [apply Sorted_nil | apply Sorted_cons
                  | apply HdRel_nil | apply HdRel_cons];
      unfold note_le; simpl;
      first [left; reflexivity | right; split; [reflexivity | discriminate]].
  - simpl. repeat split; intros; try discriminate;
      repeat first [apply List.Forall_nil | apply List.Forall_cons];
      simpl; intros; try discriminate;
      intros [Ht _]; discriminate Ht.
  - repeat first [apply List.Forall_nil | apply List.Forall_cons];
      eexists; (split; [reflexivity | split; discriminate]).
Defined.

(** X10. Running the predictor on its own output changes nothing.  When the
    oracles answer every request with at most five scores, the list that
    [predictFingerings] returns is a fixed point: given back as input, in
    any oracle state, it is returned as it is. *)
Theorem predictFingerings_idempotent {W : Type} (notes : list Note)
    (m : Models W) (w : W) (out : list Note) (w1 : W) :
  never_fails (left_model m) -> never_fails (right_model m) ->
  at_most_five_scores (left_model m) ->
  at_most_five_scores (right_model m) ->
  predictFingerings notes m w = Some (out, w1) ->
  forall w2 : W, exists w3 : W, predictFingerings out m w2 = Some (out, w3).
Proof.
  intros Hl Hr Hl5 Hr5 Hrun w2.
  assert (Hfixed : Forall finger_in_range out).
  { apply predictFingerings_Some in Hrun as (l & r & w' & El & Er & ->).
    eapply Permutation_Forall; [apply js_sort_perm|].
    apply Forall_app. split.
    - exact (predictHandFingerings_in_range _ _ _ _ _ _ Hl5 El).
    - exact (predictHandFingerings_in_range _ _ _ _ _ _ Hr5 Er). }
  apply predictFingerings_Some in Hrun as (l & r & w' & El & Er & ->).
  pose proof (sortNotes_strongly_sorted (l ++ r)) as Hsorted.
  assert (Hties : ties_first compareNotes left (sortNotes (l ++ r))).
  { apply js_sort_ties_first.
    - exact (predictHandFingerings_hand _ _ _ _ _ _ El).
    - exact (predictHandFingerings_hand _ _ _ _ _ _ Er). }
  destruct (predictHandFingerings_all_fixed _ Hl _ true w2 Hsorted Hfixed)
    as [w3 H1].
  destruct (predictHandFingerings_all_fixed _ Hr _ false w3 Hsorted Hfixed)
    as [w4 H2].
  exists w4. apply predictFingerings_Some.
  eexists _, _, w3. split; [exact H1|]. split; [exact H2|].
  rewrite filter_right_negb, filter_left_id.
  symmetry. now apply js_sort_split_id.
Qed.

Lemma tiedSession_answers : never_fails tiedSession.
Proof. intros t w. now eexists. Qed.

Lemma tiedSession_five : at_most_five_scores tiedSession.
Proof. intros t w logits w' [= <- _]. simpl. lia. Qed.

Lemma predictFingerings_idempotent_witness :
  exists w3 : unit,
    predictFingerings
      [ mkNote true 40 0 (Some 500) None (Some 2);
        mkNote false 60 0 (Some 500) None (Some 2);
        mkNote true 48 1000 (Some 500) None (Some 2);
        mkNote false 72 1000 (Some 500) None (Some 2) ]
      (mkModels tiedSession tiedSession) tt
    = Some ([ mkNote true 40 0 (Some 500) None (Some 2);
              mkNote false 60 0 (Some 500) None (Some 2);
              mkNote true 48 1000 (Some 500) None (Some 2);
              mkNote false 72 1000 (Some 500) None (Some 2) ], w3).
Proof.
  apply (predictFingerings_idempotent scrambledNotes
           (mkModels tiedSession tiedSession) tt _ tt
           tiedSession_answers tiedSession_answers
           tiedSession_five tiedSession_five).
  vm_compute. reflexivity.
Defined.

(** ** The model runner of the demo *)








(** The unison above, evaluated: the score gives finger 1 to the right hand
    and 5 to the left, and the runner answers 5 for the first parsed note,
    the one of the right hand. *)
Example runPrediction_unison_example :
  runPrediction [parsedUnisonRight; parsedUnisonLeft]
    (mkModels tiedSession tiedSession) tt
  = Some ([Some 5; Some 1], tt).
Proof. vm_compute. reflexivity. Qed.

(** ** Black keys and pitch classes of integer pitches *)






(** ** The order of the input *)

Lemma strongly_sorted_perm_eq {A : Type} (R : A -> A -> Prop)
    (l1 l2 : list A) :
  (forall a b, In a l1 -> In b l1 -> R a b -> R b a -> a = b) ->
  StronglySorted R l1 -> StronglySorted R l2 -> Permutation l1 l2 ->
  l1 = l2.
Proof.
  intros Hanti H1. revert l2.
  induction H1 as [|a l1 Hl1 IH Ha]; intros l2 H2 Hperm.
  - now apply Permutation_nil in Hperm.
  - destruct H2 as [|b l2 Hl2 Hb].
    + symmetry in Hperm. now apply Permutation_nil in Hperm.
    + assert (Hab : a = b).
      { assert (Hina : In a (b :: l2))
          by (eapply Permutation_in; [exact Hperm | now left]).
        assert (Hinb : In b (a :: l1))
          by (eapply Permutation_in; [symmetry; exact Hperm | now left]).
        destruct Hina as [-> | Hina]; [reflexivity|].
        destruct Hinb as [-> | Hinb]; [reflexivity|].
        rewrite Forall_forall in Ha, Hb.
        apply Hanti; [now left | now right | now apply Ha | now apply Hb]. }
      subst b. f_equal. apply IH.
      * intros x y Hx Hy. apply Hanti; now right.
      * exact Hl2.
      * now apply Permutation_cons_inv in Hperm.
Qed.

Lemma filter_perm {A : Type} (p : A -> bool) (l1 l2 : list A) :
  Permutation l1 l2 -> Permutation (List.filter p l1) (List.filter p l2).
Proof.
  induction 1 as [|x l1 l2 _ IH|x y l|l1 l2 l3 _ IH1 _ IH2]; simpl.
  - reflexivity.
  - destruct (p x); [now apply perm_skip | exact IH].
  - destruct (p x), (p y); try reflexivity. apply perm_swap.
  - now rewrite IH1.
Qed.

Lemma handOrder_perm_eq (notes1 notes2 : list Note) (isLeft : bool) :
  Permutation notes1 notes2 -> ties_are_copies notes1 ->
  handOrder notes1 isLeft = handOrder notes2 isLeft.
Proof.
  intros Hperm Hties. unfold handOrder.
  apply (strongly_sorted_perm_eq (cmp_le compareNotes)).
  - intros a b Ha Hb Hab Hba.
    assert (Hina : In a (List.filter
                           (fun n => Bool.eqb (left n) isLeft) notes1))
      by (eapply Permutation_in; [symmetry; apply js_sort_perm | exact Ha]).
    assert (Hinb : In b (List.filter
                           (fun n => Bool.eqb (left n) isLeft) notes1))
      by (eapply Permutation_in; [symmetry; apply js_sort_perm | exact Hb]).
    apply filter_In in Hina as [Hina Hla], Hinb as [Hinb Hlb].
    apply Bool.eqb_prop in Hla, Hlb.
    apply compareNotes_le in Hab, Hba.
    apply Hties; try assumption; [congruence| |].
    + destruct Hab as [? | [? ?]], Hba as [? | [? ?]]; lra.
    + destruct Hab as [? | [? ?]], Hba as [? | [? ?]]; lra.
  - apply sortNotes_strongly_sorted.
  - apply sortNotes_strongly_sorted.
  - unfold sortNotes. rewrite <- !js_sort_perm. now apply filter_perm.
Qed.

(** X14. The order of the input does not matter.  When any two input notes
    of the same hand that agree in onset and pitch are the same note,
    [predictHandFingerings] and [predictFingerings] give the same outcome
    (result, final oracle state, or failure) for an input list and for any
    rearrangement of it. *)
Theorem input_order_irrelevant {W : Type} (model : InferenceSession W)
    (m : Models W) (notes1 notes2 : list Note) (w : W) :
  Permutation notes1 notes2 -> ties_are_copies notes1 ->
  (forall isLeft,
      predictHandFingerings model notes1 isLeft w =
      predictHandFingerings model notes2 isLeft w) /\
  predictFingerings notes1 m w = predictFingerings notes2 m w.
Proof.
  intros Hperm Hties.
  assert (Hhand : forall (md : InferenceSession W) isLeft w0,
    predictHandFingerings md notes1 isLeft w0 =
    predictHandFingerings md notes2 isLeft w0).
  { intros md isLeft w0. unfold predictHandFingerings.
    pose proof (handOrder_perm_eq notes1 notes2 isLeft Hperm Hties) as Ho.
    unfold handOrder in Ho. rewrite Ho.
    rewrite (Permutation_length
               (filter_perm (fun n => Bool.eqb (left n) isLeft) _ _ Hperm)).
    reflexivity. }
  split; [intros isLeft; apply Hhand|].
  unfold predictFingerings, bind. rewrite Hhand.
  destruct (predictHandFingerings (left_model m) notes2 true w)
    as [[l w1]|]; [|reflexivity].
  now rewrite Hhand.
Qed.

Lemma input_order_irrelevant_witness :
  (forall isLeft,
      predictHandFingerings (createMockSession 1) chordNotes isLeft [] =
      predictHandFingerings (createMockSession 1)
        [ mkNote false 60 0 (Some 500) None None;
          mkNote false 64 0 (Some 500) None None;
          mkNote false 67 0 (Some 500) None None ] isLeft []) /\
  predictFingerings chordNotes
    (mkModels (createMockSession 2) (createMockSession 1)) [] =
  predictFingerings
    [ mkNote false 60 0 (Some 500) None None;
      mkNote false 64 0 (Some 500) None None;
      mkNote false 67 0 (Some 500) None None ]
    (mkModels (createMockSession 2) (createMockSession 1)) [].
Proof.
  apply (input_order_irrelevant (createMockSession 1)
           (mkModels (createMockSession 2) (createMockSession 1))
           chordNotes).
  - apply perm_swap.
  - intros a b Ha Hb _ _ Hn.
    simpl in Ha, Hb.
    destruct Ha as [<- | [<- | [<- | []]]];
      destruct Hb as [<- | [<- | [<- | []]]];
      first [reflexivity | discriminate Hn].
Defined.

(** ** Only the first largest score matters *)

Section Rescored.
Context (f : number -> number).
Hypothesis f_increasing : forall a b : number, a < b <-> f a < f b.

Lemma Qltb_increasing (a b : number) : Qltb (f a) (f b) = Qltb a b.
Proof.
  destruct (Qltb a b) eqn:E.
  - apply Qltb_lt in E. apply Qltb_lt.
    exact (proj1 (f_increasing a b) E).
  - destruct (Qltb (f a) (f b)) eqn:E'; [|reflexivity].
    apply Qltb_lt in E'. apply (proj2 (f_increasing a b)) in E'.
    apply Qltb_lt in E'. congruence.
Qed.

Lemma argmax_from_map (rest : list number) (i maxIdx : nat)
    (maxVal : number) :
  argmax_from (map f rest) i maxIdx (f maxVal) =
  argmax_from rest i maxIdx maxVal.
Proof.
  revert i maxIdx maxVal.
  induction rest as [|x rest IH]; intros i maxIdx maxVal; simpl;
    [reflexivity|].
  rewrite Qltb_increasing. destruct (Qltb maxVal x); apply IH.
Qed.

Lemma argmax_map (arr : list number) : argmax (map f arr) = argmax arr.
Proof. destruct arr as [|x rest]; [reflexivity | apply argmax_from_map]. Qed.

Context {W : Type} (model : InferenceSession W).

Lemma noteStep_rescored n rest st w :
  noteStep (rescored f model) n rest st w = noteStep model n rest st w.
Proof.
  unfold noteStep, bind, rescored.
  destruct (model _ w) as [[logits w']|]; [|reflexivity].
  now rewrite argmax_map.
Qed.

Lemma handLoop_rescored sorted st w :
  handLoop (rescored f model) sorted st w = handLoop model sorted st w.
Proof.
  revert st w. induction sorted as [|n rest IH]; intros st w;
    [reflexivity|].
  rewrite !handLoop_cons, noteStep_rescored.
  destruct (noteStep model n rest st w) as [[[result st'] w1]|];
    [|reflexivity].
  now rewrite IH.
Qed.

End Rescored.

(** X15. Only the first largest score matters.  Applying a strictly
    increasing function to every score that the oracle returns (adding a
    constant, scaling by a positive factor) changes nothing: the hand
    predictor returns the same notes with the same fingers, or fails in the
    same way. *)
Theorem rescoring_irrelevant {W : Type} (f : number -> number)
    (model : InferenceSession W) (notes : list Note) (isLeft : bool)
    (w : W) :
  (forall a b : number, a < b <-> f a < f b) ->
  predictHandFingerings (rescored f model) notes isLeft w =
  predictHandFingerings model notes isLeft w.
Proof.
  intros Hf. unfold predictHandFingerings.
  destruct (length _ =? 0)%nat; [reflexivity|].
  now apply handLoop_rescored.
Qed.

Lemma rescoring_irrelevant_witness :
  predictHandFingerings (rescored (fun x => 2 * x + 1) tiedSession)
    fixedNotes false tt =
  predictHandFingerings tiedSession fixedNotes false tt.
Proof.
  apply (rescoring_irrelevant (fun x => 2 * x + 1) tiedSession).
  intros a b. split; intros H; lra.
Defined.

(** ** Saturation of the time features *)

(** X16. Saturation of the time features.  In a previous-finger row the
    time feature is 1 both for a finger that was never used and for one
    released 10 seconds ago or more, and 0 for one whose note is still
    sounding or has just ended; in a lookahead row the time feature is 1
    for every note that starts 10 seconds or more after the current
    one. *)
Theorem time_features_saturate (currentMidi : number)
    (lastMidi : list number) (lastTime : list ExtNum)
    (lookaheadNotes : list LookaheadNote) :
  let tokens := buildTokens currentMidi lastMidi lastTime lookaheadNotes in
  (forall f : nat,
      (f < 5)%nat -> lastTime !! f = Some PosInf ->
      token_at tokens f 1 = Some 1) /\
  (forall (f : nat) (t : number),
      (f < 5)%nat -> lastTime !! f = Some (Fin t) ->
      exists v : number,
        token_at tokens f 1 = Some v /\
        (10 <= t -> v == 1) /\ (t <= 0 -> v == 0)) /\
  (forall (j : nat) (ln : LookaheadNote),
      (j < 20)%nat -> lookaheadNotes !! j = Some ln ->
      10000 <= ln_timeUntil ln ->
      exists v : number, token_at tokens (6 + j) 1 = Some v /\ v == 1).
Proof.
  intros tokens. unfold tokens. split; [|split].
  - intros f Hf Hlook. rewrite token_at_previous by lia.
    now rewrite (nth_lookup_Some _ _ _ _ Hlook).
  - intros f t Hf Hlook. rewrite token_at_previous by lia.
    rewrite (nth_lookup_Some _ _ _ _ Hlook). simpl.
    eexists. split; [reflexivity|]. unfold Math_max, Math_min. split.
    + intros Ht. rewrite (Q.min_r t 10 Ht).
      rewrite (Q.max_r 0 10) by lra. reflexivity.
    + intros Ht.
      assert (Hmin : Qmin t 10 <= 0)
        by (eapply Qle_trans; [apply Q.le_min_l | exact Ht]).
      rewrite (Q.max_l 0 (Qmin t 10) Hmin). reflexivity.
  - intros j ln Hj Hln Hfar. rewrite token_at_lookahead by lia.
    rewrite Hln. simpl.
    assert (Hnn : Qltb (ln_timeUntil ln) 0 = false) by (apply Qltb_ge; lra).
    rewrite Hnn. eexists. split; [reflexivity|]. unfold Math_min.
    assert (Hsec : 10 <= ln_timeUntil ln / 1000).
    { assert (H : ln_timeUntil ln / 1000 == ln_timeUntil ln * (1 # 1000))
        by field.
      rewrite H. lra. }
    rewrite (Q.min_r _ 10 Hsec). reflexivity.
Qed.

Lemma time_features_saturate_witness :
  let tokens :=
    buildTokens 60 [64; 62; -1; -1; -1]
      [Fin 12; Fin (-(1 # 2)); PosInf; PosInf; PosInf]
      [ mkLookahead 67 15000 None ] in
  token_at tokens 2 1 = Some 1 /\
  (exists v : number, token_at tokens 0 1 = Some v /\ v == 1) /\
  (exists v : number, token_at tokens 1 1 = Some v /\ v == 0) /\
  (exists v : number, token_at tokens 6 1 = Some v /\ v == 1).
Proof.
  intros tokens.
  destruct (time_features_saturate 60 [64; 62; -1; -1; -1]
              [Fin 12; Fin (-(1 # 2)); PosInf; PosInf; PosInf]
              [ mkLookahead 67 15000 None ]) as (Hnever & Hused & Hfar).
  split; [apply (Hnever 2%nat); [lia | reflexivity]|].
  split.
  - destruct (Hused 0%nat 12 ltac:(lia) eq_refl) as (v & Hv & Hsat & _).
    exists v. split; [exact Hv | apply Hsat; discriminate].
  - split.
    + destruct (Hused 1%nat (-(1 # 2)) ltac:(lia) eq_refl)
        as (v & Hv & _ & Hheld).
      exists v. split; [exact Hv | apply Hheld; discriminate].
    + apply (Hfar 0%nat (mkLookahead 67 15000 None));
        [lia | reflexivity | discriminate].
Defined.

(** ** The serialized text *)

Lemma startsWith_append (p s t : String.string) :
  Xml.startsWith s p = true -> Xml.startsWith (String.append s t) p = true.
Proof.
  revert s. induction p as [|c p IH]; intros s H; [reflexivity|].
  destruct s as [|d s]; [discriminate|]. simpl in *.
  destruct (Ascii.ascii_dec c d); [|discriminate]. now apply IH.
Qed.

(** X17.  Whatever the browser's serializer writes, the text
    [serializeXML] returns starts with the XML mark; the serializer's text
    is returned as it is when it has the mark, and behind the declaration
    otherwise; and the declaration is never added twice: the returned text
    run through the same test again comes back unchanged. *)
Theorem serialized_text_declared_once {Document : Type}
    (serializeToString : Document -> String.string) (doc : Document) :
  let xml := serializeToString doc in
  let out := Xml.serializeXML serializeToString doc in
  Xml.startsWith out Xml.xmlMark = true /\
  (Xml.startsWith xml Xml.xmlMark = true -> out = xml) /\
  (Xml.startsWith xml Xml.xmlMark = false ->
     out = String.append Xml.xmlDeclaration xml) /\
  Xml.serializeXML (fun text : String.string => text) out = out.
Proof.
  cbv zeta. unfold Xml.serializeXML.
  destruct (Xml.startsWith (serializeToString doc) Xml.xmlMark) eqn:E;
    cbn [negb].
  - rewrite E. cbn [negb]. repeat split; try discriminate; auto.
  - assert (H : Xml.startsWith
                  (String.append Xml.xmlDeclaration (serializeToString doc))
                  Xml.xmlMark = true)
      by (apply startsWith_append; reflexivity).
    rewrite H. cbn [negb]. repeat split; try discriminate; auto.
Qed.

Lemma serialized_text_declared_once_witness :
  Xml.serializeXML (fun text : String.string => text) Xml.bareScore
  = String.append Xml.xmlDeclaration Xml.bareScore.
Proof.
  exact (proj1 (proj2 (proj2
    (serialized_text_declared_once (fun text : String.string => text)
       Xml.bareScore))) eq_refl).
Defined.
